(** * tao::pool<T> (src/pool.hpp): a shallow embedding and its properties

    The class template [tao::pool<T>] keeps released items of type [T] in a
    mutex-guarded [std::list] and hands them out again.  Items travel as
    [std::shared_ptr<T>] whose deleter holds a [std::weak_ptr] to a pool.

    The embedding is sequential: every member function is a function on an
    explicit [world] (the live pool objects, the environment the factory hook
    reads, and the trace of observable events).  Functions declared
    [noexcept] are total state transformers; [create] and [get] return an
    [outcome], which is a value, a thrown exception or a fault.

    An item is represented by its current state, a value of [T]; a change of
    an item is the replacement of that value.  Threads are not modelled: the
    mutex shows only as the lock and unlock events around the accesses to
    [items_], and a release is the one moment at which the last copy of a
    shared pointer goes away. *)

From Stdlib Require Import ZArith Lia.
From stdpp Require Import base option list gmap.

Module pool.

(** Identity of a pool object (its address). *)
Abbreviation pool_id := nat.

(** What a call can end in. *)
Inductive exn (E : Type) : Type :=
| bad_weak_ptr                 (* thrown by shared_from_this *)
| factory_error (e : E).       (* whatever v_create threw *)
Arguments bad_weak_ptr {E}.
Arguments factory_error {E} e.

Inductive fault : Type :=
| assert_failed                (* assert( d ) in attach / detach *)
| dangling_pool.               (* member call on a pool that does not exist *)

Inductive outcome (E A : Type) : Type :=
| Ok (a : A)
| Throw (e : exn E)
| Abort (f : fault).
Arguments Ok {E A} a.
Arguments Throw {E A} e.
Arguments Abort {E A} f.

(** ** A concrete resource type: counters

    Items are integers, an item is reusable while it is not negative, and
    the factory numbers the items it makes: the environment is the last
    number handed out.  [broken_factory] always throws its error code. *)
Definition counter_valid (x : Z) : bool := (0 <=? x)%Z.

Definition counter_factory (n : Z) : (nat + Z) * Z := (inr (n + 1)%Z, (n + 1)%Z).

Definition broken_factory (n : Z) : (nat + Z) * Z := (inl 42, n).

(** A factory that makes the counter 1 and throws from then on. *)
Definition flaky_factory (n : Z) : (nat + Z) * Z :=
  if (n =? 0)%Z then (inr 1%Z, 1%Z) else (inl 42, n).

(** [v_is_valid] as the base class defines it, lines 30-33. *)
Definition default_is_valid {T : Type} (x : T) : bool := true.

Section with_hooks.

(** [T] is the pooled type, [E] the type of what the factory may throw,
    [Env] the part of the program state the factory hook depends on. *)
Context {T E Env : Type}.

(** The two virtual hooks of the derived class. *)
Variable v_create : Env -> (E + T) * Env.
Variable v_is_valid : T -> bool.

(** ** Data *)

(** The deleter stored in a control block.  [pool_deleter w] is
    [tao::pool<T>::deleter] with [pool_ = w] ([None]: empty or reset weak
    pointer); [other_deleter] is any deleter of another type, for which
    [std::get_deleter< deleter >] yields a null pointer. *)
Inductive deleter : Type :=
| pool_deleter (pool_ : option pool_id)
| other_deleter.

(** A non-null [std::shared_ptr<T>]: the control block shared by all its
    copies, that is the owned item and the deleter. *)
Record shared_ptr : Type := mk_sp { ptr : T; del : deleter }.

(** A pool object.  [owned] tells whether a [std::shared_ptr] owns the
    object, i.e. whether [weak_from_this] can be locked. *)
Record pool_obj : Type := mk_pool { owned : bool; items_ : list shared_ptr }.

Inductive event : Type :=
| EvLock (p : pool_id)                    (* lock_guard constructed on mutex_ *)
| EvUnlock (p : pool_id)                  (* lock_guard destroyed *)
| EvPushBack (p : pool_id) (x : T)        (* items_.push_back *)
| EvPopBack (p : pool_id) (x : T)         (* items_.pop_back *)
| EvResolve (pool_ r : option pool_id)    (* pool_.lock() in the deleter *)
| EvIsValid (p : pool_id) (x : T) (b : bool)  (* v_is_valid called *)
| EvCreate (p : pool_id) (r : E + T)      (* v_create called *)
| EvDelete (x : T).                       (* delete item *)

(** [next_id] is the identity the next pool object gets: identities are
    never used twice, so a weak pointer to a pool that is gone stays
    expired. *)
Record world : Type := mk_world {
  pools : gmap pool_id pool_obj;
  next_id : pool_id;
  env : Env;
  trace : list event
}.

Definition emit (evs : list event) (w : world) : world :=
  {| pools := pools w; next_id := next_id w; env := env w; trace := trace w ++ evs |}.

Definition set_env (e : Env) (w : world) : world :=
  {| pools := pools w; next_id := next_id w; env := e; trace := trace w |}.

Definition items_of (p : pool_id) (w : world) : list shared_ptr :=
  match pools w !! p with
  | Some po => items_ po
  | None => []
  end.

Definition set_items (p : pool_id) (l : list shared_ptr) (w : world) : world :=
  {| pools := alter (fun po => {| owned := owned po; items_ := l |}) p (pools w);
     next_id := next_id w;
     env := env w;
     trace := trace w |}.

(** [std::weak_ptr<pool>::lock]. *)
Definition weak_lock (pool_ : option pool_id) (w : world) : option pool_id :=
  match pool_ with
  | Some p =>
      match pools w !! p with
      | Some po => if owned po then Some p else None
      | None => None
      end
  | None => None
  end.

(** ** The release path (all [noexcept]) *)

(** [pool::push], lines 64-72.  The result is what [up] still owns when
    the call returns. *)
Definition push (p : pool_id) (up : T) (w : world) : option T * world :=
  let w1 := emit [EvIsValid p up (v_is_valid up)] w in
  if v_is_valid up then
    let sp := {| ptr := up; del := pool_deleter None |} in
    let w2 := emit [EvLock p] w1 in
    let w3 := emit [EvPushBack p up] (set_items p (items_of p w2 ++ [sp]) w2) in
    (None, emit [EvUnlock p] w3)
  else (Some up, w1).

(** [~unique_ptr]. *)
Definition destroy_up (up : option T) (w : world) : world :=
  match up with
  | Some x => emit [EvDelete x] w
  | None => w
  end.

(** [deleter::operator()], lines 52-59. *)
Definition deleter_call (pool_ : option pool_id) (item : T) (w : world) : world :=
  let r := weak_lock pool_ w in
  let w1 := emit [EvResolve pool_ r] w in
  match r with
  | Some p => let '(up, w2) := push p item w1 in destroy_up up w2
  | None => destroy_up (Some item) w1
  end.

(** The last strong reference to a control block goes away. *)
Definition drop (sp : shared_ptr) (w : world) : world :=
  match del sp with
  | pool_deleter pool_ => deleter_call pool_ (ptr sp) w
  | other_deleter => emit [EvDelete (ptr sp)] w
  end.

(** [pool::pull], lines 76-85. *)
Definition pull (p : pool_id) (w : world) : option shared_ptr * world :=
  let w1 := emit [EvLock p] w in
  match last (items_of p w1) with
  | Some sp =>
      let w2 := emit [EvPopBack p (ptr sp)] (set_items p (removelast (items_of p w1)) w1) in
      (Some sp, emit [EvUnlock p] w2)
  | None => (None, emit [EvUnlock p] w1)
  end.

(** ** attach and detach, lines 95-109 *)

Definition get_deleter (sp : shared_ptr) : option (option pool_id) :=
  match del sp with
  | pool_deleter pool_ => Some pool_
  | other_deleter => None
  end.

(** [p] stands for a non-null [std::shared_ptr< pool >]; the result is the
    control block of [sp] after the assignment to [d->pool_]. *)
Definition attach (sp : shared_ptr) (p : pool_id) : outcome E shared_ptr :=
  match get_deleter sp with
  | Some _ => Ok {| ptr := ptr sp; del := pool_deleter (Some p) |}
  | None => Abort assert_failed
  end.

Definition detach (sp : shared_ptr) : outcome E shared_ptr :=
  match get_deleter sp with
  | Some _ => Ok {| ptr := ptr sp; del := pool_deleter None |}
  | None => Abort assert_failed
  end.

(** ** create and get, lines 112-128 *)

(** [enable_shared_from_this::shared_from_this]. *)
Definition shared_from_this (p : pool_id) (w : world) : outcome E pool_id :=
  match pools w !! p with
  | Some po => if owned po then Ok p else Throw bad_weak_ptr
  | None => Abort dangling_pool
  end.

(** [pool::create].  The braced list evaluates [v_create().release()]
    before [shared_from_this()]. *)
Definition create (p : pool_id) (w : world) : outcome E shared_ptr * world :=
  match pools w !! p with
  | None => (Abort dangling_pool, w)
  | Some _ =>
      let '(r, e') := v_create (env w) in
      let w1 := emit [EvCreate p r] (set_env e' w) in
      match r with
      | inl e => (Throw (factory_error e), w1)
      | inr x =>
          match shared_from_this p w1 with
          | Ok q => (Ok {| ptr := x; del := pool_deleter (Some q) |}, w1)
          | Throw e => (Throw e, w1)
          | Abort f => (Abort f, w1)
          end
      end
  end.

(** The [while] loop of [pool::get]; [None] means the fuel ran out. *)
Fixpoint get_loop (fuel : nat) (p : pool_id) (w : world)
  : option (outcome E shared_ptr * world) :=
  match fuel with
  | O => None
  | S fuel' =>
      match pull p w with
      | (Some sp, w1) =>
          let w2 := emit [EvIsValid p (ptr sp) (v_is_valid (ptr sp))] w1 in
          if v_is_valid (ptr sp) then
            match shared_from_this p w2 with
            | Ok q =>
                match attach sp q with
                | Ok sp' => Some (Ok sp', w2)
                | Throw e => Some (Throw e, drop sp w2)
                | Abort f => Some (Abort f, w2)
                end
            | Throw e => Some (Throw e, drop sp w2)
            | Abort f => Some (Abort f, w2)
            end
          else get_loop fuel' p (drop sp w2)
      | (None, w1) => Some (create p w1)
      end
  end.

(** [pool::get]: each iteration pops one item, so one more round than
    there are stored items is enough. *)
Definition get (p : pool_id) (w : world) : option (outcome E shared_ptr * world) :=
  match pools w !! p with
  | None => Some (Abort dangling_pool, w)
  | Some po => get_loop (S (length (items_ po))) p w
  end.

(** ** erase_invalid, lines 133-152 *)

(** The iterator loop: the items kept, the items moved to
    [deferred_delete], and the hook calls made, all in list order. *)
Fixpoint sweep (p : pool_id) (l : list shared_ptr)
  : list shared_ptr * list shared_ptr * list event :=
  match l with
  | [] => ([], [], [])
  | sp :: l' =>
      let '(kept, deferred, evs) := sweep p l' in
      let ev := EvIsValid p (ptr sp) (v_is_valid (ptr sp)) in
      if negb (v_is_valid (ptr sp))
      then (kept, sp :: deferred, ev :: evs)
      else (sp :: kept, deferred, ev :: evs)
  end.

(** Destruction of a list of shared pointers, front to back. *)
Definition drop_all (l : list shared_ptr) (w : world) : world :=
  fold_left (fun w' sp => drop sp w') l w.

Definition erase_invalid (p : pool_id) (w : world) : world :=
  let w1 := emit [EvLock p] w in
  let '(kept, deferred_delete, evs) := sweep p (items_of p w1) in
  let w2 := set_items p kept (emit evs w1) in
  (* scope exit: the lock_guard goes first, then deferred_delete *)
  drop_all deferred_delete (emit [EvUnlock p] w2).

(** ** Life time of a pool object *)

(** [std::make_shared< derived >()]: a new pool object, owned, with
    nothing stored. *)
Definition new_pool (w : world) : world :=
  {| pools := <[next_id w := {| owned := true; items_ := [] |}]> (pools w);
     next_id := S (next_id w);
     env := env w;
     trace := trace w |}.

(** The last [shared_ptr< pool >] goes away: weak pointers expire, then
    [~pool] destroys [items_], then the object is gone. *)
Definition destroy_pool (p : pool_id) (w : world) : world :=
  let l := items_of p w in
  let w1 := {| pools := alter (fun po => {| owned := false; items_ := [] |}) p (pools w);
               next_id := next_id w;
               env := env w;
               trace := trace w |} in
  let w2 := drop_all l w1 in
  {| pools := delete p (pools w2); next_id := next_id w2; env := env w2; trace := trace w2 |}.

(** The world in which the pool objects [l] have the identities 0, 1, ...
    in this order, with nothing traced so far. *)
Definition world_of (l : list pool_obj) (e : Env) : world :=
  {| pools := map_seq 0 l; next_id := length l; env := e; trace := [] |}.

(** ** Reading a trace *)

Definition is_factory_call (e : event) : bool :=
  match e with EvCreate _ _ => true | _ => false end.

Definition is_construction (e : event) : bool :=
  match e with EvCreate _ (inr _) => true | _ => false end.

Definition is_destruction (e : event) : bool :=
  match e with EvDelete _ => true | _ => false end.

Definition is_hook_call (e : event) : bool :=
  match e with EvIsValid _ _ _ => true | _ => false end.

Definition is_push (e : event) : bool :=
  match e with EvPushBack _ _ => true | _ => false end.

Definition count (f : event -> bool) (tr : list event) : nat :=
  length (List.filter f tr).

(** The items destroyed, in the order of their destruction. *)
Definition deleted (tr : list event) : list T :=
  omap (fun e => match e with EvDelete x => Some x | _ => None end) tr.

(** What one round of [get] that meets an invalid stored item leaves in
    the trace. *)
Definition discard_events (p : pool_id) (sp : shared_ptr) : list event :=
  [EvLock p; EvPopBack p (ptr sp); EvUnlock p; EvIsValid p (ptr sp) false;
   EvResolve None None; EvDelete (ptr sp)].

(** What the release of a control block with an empty pool association
    leaves in the trace: the item is destroyed on the spot. *)
Definition direct_delete (sp : shared_ptr) : list event :=
  [EvResolve None None; EvDelete (ptr sp)].

Definition valid_sp (sp : shared_ptr) : bool := v_is_valid (ptr sp).

Definition hook_call (p : pool_id) (sp : shared_ptr) : event :=
  EvIsValid p (ptr sp) (valid_sp sp).

Definition unbound (sp : shared_ptr) : Prop := del sp = pool_deleter None.

(** Every stored control block has an empty pool association. *)
Definition stored_unbound (w : world) : Prop :=
  forall p po, pools w !! p = Some po -> Forall unbound (items_ po).

(** The owning shared pointer of a pool goes away but the pool object
    lives on: its destructor has only just begun, or the shared pointer had
    a deleter that does not delete.  From here on [weak_from_this] cannot
    be locked. *)
Definition expire (p : pool_id) (w : world) : world :=
  {| pools := alter (fun po => {| owned := false; items_ := items_ po |}) p (pools w);
     next_id := next_id w;
     env := env w;
     trace := trace w |}.

(** ** A client program

    The caller side: the control blocks the callers hold ([handles]) and the
    calls they can make.  A handle is named by its position. *)
Record sys : Type := mk_sys { sw : world; handles : list shared_ptr }.

Inductive op : Type :=
| OpNewPool                           (* make a pool behind a shared_ptr *)
| OpDestroyPool (p : pool_id)         (* give up the last owner of a pool *)
| OpExpire (p : pool_id)              (* the last owner goes, the object stays *)
| OpCreate (p : pool_id)
| OpGet (p : pool_id)
| OpRelease (i : nat)                 (* the last copy of handle i goes away *)
| OpAttach (i : nat) (p : pool_id)
| OpDetach (i : nat)
| OpEraseInvalid (p : pool_id)
| OpForeign (x : T)                   (* std::make_shared< T >, no pool involved *)
| OpUse (i : nat) (x : T)             (* the holder changes the item of handle i *)
| OpDecay (p : pool_id) (i : nat) (x : T).  (* a stored item changes state *)

Definition returned (r : outcome E shared_ptr * world) (s : sys) : sys :=
  match r with
  | (Ok sp, w) => {| sw := w; handles := handles s ++ [sp] |}
  | (_, w) => {| sw := w; handles := handles s |}
  end.

Definition set_ptr (x : T) (sp : shared_ptr) : shared_ptr :=
  {| ptr := x; del := del sp |}.

Definition step (o : op) (s : sys) : sys :=
  match o with
  | OpNewPool => {| sw := new_pool (sw s); handles := handles s |}
  | OpDestroyPool p => {| sw := destroy_pool p (sw s); handles := handles s |}
  | OpExpire p => {| sw := expire p (sw s); handles := handles s |}
  | OpCreate p => returned (create p (sw s)) s
  | OpGet p =>
      match get p (sw s) with
      | Some r => returned r s
      | None => s
      end
  | OpRelease i =>
      match handles s !! i with
      | Some sp => {| sw := drop sp (sw s); handles := delete i (handles s) |}
      | None => s
      end
  | OpAttach i p =>
      match handles s !! i, weak_lock (Some p) (sw s) with
      | Some sp, Some q =>
          match attach sp q with
          | Ok sp' => {| sw := sw s; handles := <[i := sp']> (handles s) |}
          | _ => s
          end
      | _, _ => s
      end
  | OpDetach i =>
      match handles s !! i with
      | Some sp =>
          match detach sp with
          | Ok sp' => {| sw := sw s; handles := <[i := sp']> (handles s) |}
          | _ => s
          end
      | None => s
      end
  | OpEraseInvalid p => {| sw := erase_invalid p (sw s); handles := handles s |}
  | OpForeign x => {| sw := sw s; handles := handles s ++ [{| ptr := x; del := other_deleter |}] |}
  | OpUse i x => {| sw := sw s; handles := alter (set_ptr x) i (handles s) |}
  | OpDecay p i x =>
      {| sw := set_items p (alter (set_ptr x) i (items_of p (sw s))) (sw s);
         handles := handles s |}
  end.

Definition run (ops : list op) (s : sys) : sys :=
  fold_left (fun s' o => step o s') ops s.

(** The program starts with no pool and no handle. *)
Definition init (e : Env) : sys :=
  {| sw := world_of [] e; handles := [] |}.

(** The calls the conservation property speaks of, on the pool [p]. *)
Definition pool_call (p : pool_id) (o : op) : bool :=
  match o with
  | OpCreate q | OpGet q => Nat.eqb q p
  | OpRelease _ | OpUse _ _ => true
  | OpDecay q _ _ => Nat.eqb q p
  | _ => false
  end.

(** The books of the pool [p]: what the callers hold and what is stored,
    against what was constructed and destroyed. *)
Definition balanced (p : pool_id) (s : sys) : Prop :=
  length (handles s) + length (items_of p (sw s)) + count is_destruction (trace (sw s))
  = count is_construction (trace (sw s)).

(** [p] is the only pool there is, and a shared pointer owns it. *)
Definition sole_pool (p : pool_id) (w : world) : Prop :=
  (exists po, pools w !! p = Some po /\ owned po = true)
  /\ (forall q, q <> p -> pools w !! q = None).

(** What every state of a program that works on one pool satisfies. *)
Definition conserving (p : pool_id) (s : sys) : Prop :=
  sole_pool p (sw s) /\ stored_unbound (sw s) /\ balanced p s.

(** [n] calls of [get] in a row; the items served, until a call does not
    return one. *)
Fixpoint get_n (n : nat) (p : pool_id) (w : world) : list shared_ptr * world :=
  match n with
  | O => ([], w)
  | S n' =>
      match get p w with
      | Some (Ok sp, w1) => let '(l, w2) := get_n n' p w1 in (sp :: l, w2)
      | Some (_, w1) => ([], w1)
      | None => ([], w)
      end
  end.

(** ** The lock discipline

    [std::mutex] is not recursive, and the source keeps the destruction of
    items out of the critical section (lines 135-139).  [lock_step] reads one
    event with the mutex that is held, if any: a second lock, an unlock of
    a mutex that is not held, an access to [items_] without the lock of its
    pool, and a deleter, a destruction or a construction inside a critical
    section are violations ([None]). *)
Definition lock_step (held : option pool_id) (e : event) : option (option pool_id) :=
  match e with
  | EvLock p =>
      match held with
      | None => Some (Some p)
      | Some _ => None
      end
  | EvUnlock p =>
      match held with
      | Some q => if Nat.eqb p q then Some None else None
      | None => None
      end
  | EvPushBack p _ | EvPopBack p _ =>
      match held with
      | Some q => if Nat.eqb p q then Some held else None
      | None => None
      end
  | EvResolve _ _ | EvCreate _ _ | EvDelete _ =>
      match held with
      | None => Some None
      | Some _ => None
      end
  | EvIsValid _ _ _ => Some held
  end.

Fixpoint lock_run (held : option pool_id) (tr : list event) : option (option pool_id) :=
  match tr with
  | [] => Some held
  | e :: tr' =>
      match lock_step held e with
      | Some held' => lock_run held' tr'
      | None => None
      end
  end.

(** A trace that keeps the discipline and ends with no mutex held. *)
Definition disciplined (tr : list event) : Prop := lock_run None tr = Some None.

(** ** Books over all pools *)

(** The number of items stored in all pools together. *)
Definition stored_total (m : gmap pool_id pool_obj) : nat :=
  map_fold (fun _ po n => length (items_ po) + n) 0 m.

Definition all_owned (w : world) : Prop :=
  forall p po, pools w !! p = Some po -> owned po = true.

(** No pool object has an identity that is still to be given out. *)
Definition fresh_ok (w : world) : Prop :=
  forall q, next_id w <= q -> pools w !! q = None.

Definition balanced_all (s : sys) : Prop :=
  length (handles s) + stored_total (pools (sw s)) + count is_destruction (trace (sw s))
  = count is_construction (trace (sw s)).

Definition sound (s : sys) : Prop :=
  fresh_ok (sw s) /\ all_owned (sw s) /\ stored_unbound (sw s) /\ balanced_all s.

(** The calls of a program in which every item comes from a factory and
    every pool stays behind its shared pointer while it exists. *)
Definition regular_call (o : op) : bool :=
  match o with
  | OpForeign _ | OpExpire _ => false
  | _ => true
  end.

(** The calls of a program that makes no handle of its own. *)
Definition pool_made_call (o : op) : bool :=
  match o with
  | OpForeign _ => false
  | _ => true
  end.

Definition pool_made (sp : shared_ptr) : Prop := get_deleter sp <> None.

(** The pool [p] has existed and is gone. *)
Definition dead (p : pool_id) (w : world) : Prop :=
  p < next_id w /\ pools w !! p = None.

(** ** Proof steps used throughout *)

(** From [Hu : Forall unbound l] and [Hl : l = pre ++ sp :: post], what
    holds of each of the three parts. *)
Ltac split_unbound Hu Hl Hpre Hsp Hpost :=
  let H := fresh in
  pose proof Hu as H; rewrite Hl in H;
  apply Forall_app in H as [Hpre H];
  apply Forall_cons in H as [Hsp Hpost].

(** ** Worlds: bookkeeping *)

Lemma emit_nil (w : world) : emit [] w = w.
Proof. destruct w as [m n e tr]. unfold emit. simpl. by rewrite app_nil_r. Qed.

Lemma emit_emit (e1 e2 : list event) (w : world) :
  emit e2 (emit e1 w) = emit (e1 ++ e2) w.
Proof. unfold emit. simpl. by rewrite app_assoc. Qed.

Lemma set_items_emit (p : pool_id) (l : list shared_ptr) (evs : list event) (w : world) :
  set_items p l (emit evs w) = emit evs (set_items p l w).
Proof. reflexivity. Qed.

Lemma set_items_set_items (p : pool_id) (l1 l2 : list shared_ptr) (w : world) :
  set_items p l2 (set_items p l1 w) = set_items p l2 w.
Proof.
  unfold set_items. simpl. f_equal.
  rewrite alter_alter_eq. by apply alter_ext.
Qed.

Lemma set_items_same (p : pool_id) (w : world) (po : pool_obj) :
  pools w !! p = Some po -> set_items p (items_ po) w = w.
Proof.
  intros Hp. destruct w as [m n e tr]. unfold set_items. simpl in *. f_equal.
  apply alter_id. intros po' Hpo'. rewrite Hp in Hpo'. injection Hpo' as <-.
  by destruct po.
Qed.

Lemma lookup_set_items (p : pool_id) (l : list shared_ptr) (w : world) (po : pool_obj) :
  pools w !! p = Some po ->
  pools (set_items p l w) !! p = Some {| owned := owned po; items_ := l |}.
Proof. intros Hp. unfold set_items. simpl. by rewrite lookup_alter_eq, Hp. Qed.

Lemma lookup_set_items_ne (p q : pool_id) (l : list shared_ptr) (w : world) :
  p <> q -> pools (set_items p l w) !! q = pools w !! q.
Proof. intros Hne. unfold set_items. simpl. by rewrite lookup_alter_ne. Qed.

Lemma items_of_set_items (p : pool_id) (l : list shared_ptr) (w : world) (po : pool_obj) :
  pools w !! p = Some po -> items_of p (set_items p l w) = l.
Proof. intros Hp. unfold items_of. by rewrite (lookup_set_items p l w po Hp). Qed.

Lemma items_of_lookup (p : pool_id) (w : world) (po : pool_obj) :
  pools w !! p = Some po -> items_of p w = items_ po.
Proof. intros Hp. unfold items_of. by rewrite Hp. Qed.

(** ** Reading a trace: sums over appended traces *)

Lemma count_app (f : event -> bool) (a b : list event) :
  count f (a ++ b) = count f a + count f b.
Proof. unfold count. by rewrite List.filter_app, length_app. Qed.

Lemma deleted_app (a b : list event) : deleted (a ++ b) = deleted a ++ deleted b.
Proof. unfold deleted. apply omap_app. Qed.

(** ** pull *)

Lemma pull_snoc (p : pool_id) (w : world) (po : pool_obj) (l : list shared_ptr) (sp : shared_ptr) :
  pools w !! p = Some po -> items_ po = l ++ [sp] ->
  pull p w = (Some sp, emit [EvLock p; EvPopBack p (ptr sp); EvUnlock p] (set_items p l w)).
Proof.
  intros Hp Hl. unfold pull.
  change (items_of p (emit [EvLock p] w)) with (items_of p w).
  rewrite (items_of_lookup p w po Hp), Hl, last_snoc, removelast_last.
  rewrite set_items_emit, !emit_emit. reflexivity.
Qed.

Lemma pull_nil (p : pool_id) (w : world) :
  items_of p w = [] -> pull p w = (None, emit [EvLock p; EvUnlock p] w).
Proof.
  intros Hl. unfold pull.
  change (items_of p (emit [EvLock p] w)) with (items_of p w).
  rewrite Hl. simpl. by rewrite emit_emit.
Qed.

(** ** drop *)

Lemma drop_unbound (sp : shared_ptr) (w : world) :
  unbound sp -> drop sp w = emit [EvResolve None None; EvDelete (ptr sp)] w.
Proof.
  intros Hu. unfold drop. rewrite Hu. unfold deleter_call. simpl.
  by rewrite emit_emit.
Qed.

(** Releasing an item the hook rejects: the pools stay as they are and the
    item is destroyed, whatever the deleter. *)
Lemma drop_invalid (sp : shared_ptr) (w : world) :
  valid_sp sp = false ->
  exists evs, drop sp w = emit evs w /\ deleted evs = [ptr sp] /\
              count is_construction evs = 0 /\ count is_push evs = 0.
Proof.
  unfold valid_sp. intros Hv. unfold drop. destruct (del sp) as [wp|].
  - unfold deleter_call. destruct (weak_lock wp w) as [q|].
    + unfold push. rewrite Hv. simpl. rewrite !emit_emit. eexists. split; [reflexivity|]. done.
    + simpl. rewrite emit_emit. eexists. split; [reflexivity|]. done.
  - eexists. split; [reflexivity|]. done.
Qed.

(** ** The loop of get *)

Lemma get_loop_discard (p : pool_id) (post : list shared_ptr) :
  forall (pre : list shared_ptr) (w : world) (po : pool_obj) (fuel : nat),
    pools w !! p = Some po -> items_ po = pre ++ post ->
    Forall unbound post -> Forall (fun sp => valid_sp sp = false) post ->
    get_loop (length post + fuel) p w
    = get_loop fuel p (emit (flat_map (discard_events p) (rev post)) (set_items p pre w)).
Proof.
  induction post as [|y post IH] using rev_ind; intros pre w po fuel Hp Hl Hu Hv.
  - rewrite app_nil_r in Hl. subst pre. simpl.
    by rewrite (set_items_same p w po Hp), emit_nil.
  - apply Forall_app in Hu as [Hu Hy]. apply Forall_app in Hv as [Hv Hvy].
    rewrite Forall_singleton in Hy. rewrite Forall_singleton in Hvy.
    rewrite length_app. simpl length.
    replace (length post + 1 + fuel) with (S (length post + fuel)) by lia.
    cbn [get_loop].
    rewrite app_assoc in Hl.
    rewrite (pull_snoc p w po (pre ++ post) y Hp Hl).
    unfold valid_sp in Hvy. simpl in Hvy. rewrite Hvy.
    rewrite (drop_unbound y _ Hy), !emit_emit.
    rewrite (IH pre _ {| owned := owned po; items_ := pre ++ post |} fuel); [|by apply lookup_set_items|done..].
    rewrite set_items_emit, set_items_set_items, emit_emit.
    rewrite rev_app_distr. simpl. unfold discard_events at 2.
    repeat f_equal.
Qed.

Lemma get_loop_found (p : pool_id) (w : world) (po : pool_obj) (pre : list shared_ptr)
    (sp : shared_ptr) (fuel : nat) :
  pools w !! p = Some po -> owned po = true -> items_ po = pre ++ [sp] ->
  valid_sp sp = true -> get_deleter sp <> None ->
  get_loop (S fuel) p w
  = Some (Ok {| ptr := ptr sp; del := pool_deleter (Some p) |},
          emit [EvLock p; EvPopBack p (ptr sp); EvUnlock p; EvIsValid p (ptr sp) true]
               (set_items p pre w)).
Proof.
  intros Hp Ho Hl Hv Hd. cbn [get_loop].
  rewrite (pull_snoc p w po pre sp Hp Hl).
  unfold valid_sp in Hv. rewrite Hv.
  unfold shared_from_this.
  change (pools (emit ?a (emit ?b (set_items p pre w)))) with (pools (set_items p pre w)).
  rewrite (lookup_set_items p pre w po Hp). simpl. rewrite Ho.
  unfold attach. destruct (get_deleter sp); [|done].
  by rewrite emit_emit.
Qed.

Lemma get_loop_unowned (p : pool_id) (w : world) (po : pool_obj) (pre : list shared_ptr)
    (sp : shared_ptr) (fuel : nat) :
  pools w !! p = Some po -> owned po = false -> items_ po = pre ++ [sp] ->
  valid_sp sp = true ->
  get_loop (S fuel) p w
  = Some (Throw bad_weak_ptr,
          drop sp (emit [EvLock p; EvPopBack p (ptr sp); EvUnlock p; EvIsValid p (ptr sp) true]
                        (set_items p pre w))).
Proof.
  intros Hp Ho Hl Hv. cbn [get_loop].
  rewrite (pull_snoc p w po pre sp Hp Hl).
  unfold valid_sp in Hv. rewrite Hv.
  unfold shared_from_this.
  change (pools (emit ?a (emit ?b (set_items p pre w)))) with (pools (set_items p pre w)).
  rewrite (lookup_set_items p pre w po Hp). simpl. rewrite Ho.
  by rewrite emit_emit.
Qed.

(** The loop ends within the fuel [get] gives it, in every world: a round
    that does not return removes one stored item and adds none. *)
Lemma get_loop_returns (p : pool_id) (fuel : nat) :
  forall w : world,
    length (items_of p w) < fuel -> is_Some (get_loop fuel p w).
Proof.
  induction fuel as [|fuel IH]; intros w Hlen; [lia|].
  cbn [get_loop]. unfold pull.
  change (items_of p (emit [EvLock p] w)) with (items_of p w).
  destruct (items_of p w) as [|x l] eqn:Hl using rev_ind; [done|].
  clear IHl. rewrite last_snoc, removelast_last.
  destruct (v_is_valid (ptr x)) eqn:Hv.
  - destruct (shared_from_this _ _); [|done..]. by destruct (attach _ _).
  - destruct (drop_invalid x
                (emit [EvIsValid p (ptr x) false]
                   (emit [EvUnlock p]
                      (emit [EvPopBack p (ptr x)] (set_items p l (emit [EvLock p] w)))))
                Hv) as (evs & -> & _).
    apply IH.
    change (items_of p (emit evs ?w1)) with (items_of p (set_items p l w)).
    assert (Hle : length (items_of p (set_items p l w)) <= length l).
    { unfold items_of at 1. unfold set_items. simpl. rewrite lookup_alter_eq.
      destruct (pools w !! p); simpl; lia. }
    rewrite length_app in Hlen. simpl in Hlen. lia.
Qed.

Lemma get_returns (p : pool_id) (w : world) : is_Some (get p w).
Proof.
  unfold get. destruct (pools w !! p) as [po|] eqn:Hp; [|done].
  apply get_loop_returns. rewrite (items_of_lookup p w po Hp). lia.
Qed.

Lemma get_loop_empty (p : pool_id) (w : world) (fuel : nat) :
  items_of p w = [] ->
  get_loop (S fuel) p w = Some (create p (emit [EvLock p; EvUnlock p] w)).
Proof. intros Hl. cbn [get_loop]. by rewrite (pull_nil p w Hl). Qed.

(** ** Release, case by case *)

Lemma weak_lock_Some (pool_ : option pool_id) (p : pool_id) (w : world) :
  weak_lock pool_ w = Some p ->
  pool_ = Some p /\ exists po, pools w !! p = Some po /\ owned po = true.
Proof.
  unfold weak_lock. destruct pool_ as [q|]; [|done].
  destruct (pools w !! q) as [po|] eqn:Hq; [|done].
  destruct (owned po) eqn:Ho; [|done].
  intros [= <-]. eauto.
Qed.

Lemma weak_lock_live (p : pool_id) (w : world) (po : pool_obj) :
  pools w !! p = Some po -> owned po = true -> weak_lock (Some p) w = Some p.
Proof. intros Hp Ho. unfold weak_lock. by rewrite Hp, Ho. Qed.

Lemma drop_pool_gone (sp : shared_ptr) (pool_ : option pool_id) (w : world) :
  del sp = pool_deleter pool_ -> weak_lock pool_ w = None ->
  drop sp w = emit [EvResolve pool_ None; EvDelete (ptr sp)] w.
Proof.
  intros Hd Hl. unfold drop. rewrite Hd. unfold deleter_call. rewrite Hl.
  simpl. by rewrite emit_emit.
Qed.

Lemma drop_live_invalid (sp : shared_ptr) (pool_ : option pool_id) (p : pool_id) (w : world) :
  del sp = pool_deleter pool_ -> weak_lock pool_ w = Some p ->
  v_is_valid (ptr sp) = false ->
  drop sp w = emit [EvResolve pool_ (Some p); EvIsValid p (ptr sp) false; EvDelete (ptr sp)] w.
Proof.
  intros Hd Hl Hv. unfold drop. rewrite Hd. unfold deleter_call. rewrite Hl.
  unfold push. rewrite Hv. simpl. by rewrite !emit_emit.
Qed.

Lemma drop_live_valid (sp : shared_ptr) (pool_ : option pool_id) (p : pool_id) (w : world) :
  del sp = pool_deleter pool_ -> weak_lock pool_ w = Some p ->
  v_is_valid (ptr sp) = true ->
  drop sp w
  = emit [EvResolve pool_ (Some p); EvIsValid p (ptr sp) true;
          EvLock p; EvPushBack p (ptr sp); EvUnlock p]
         (set_items p (items_of p w ++ [{| ptr := ptr sp; del := pool_deleter None |}]) w).
Proof.
  intros Hd Hl Hv. unfold drop. rewrite Hd. unfold deleter_call. rewrite Hl.
  unfold push. rewrite Hv. simpl.
  change (items_of p (emit ?a (emit ?b (emit ?c w)))) with (items_of p w).
  by rewrite !set_items_emit, !emit_emit.
Qed.

(** ** The sweep *)

Lemma sweep_spec (p : pool_id) (l : list shared_ptr) :
  sweep p l
  = (List.filter valid_sp l,
     List.filter (fun sp => negb (valid_sp sp)) l,
     map (fun sp => EvIsValid p (ptr sp) (valid_sp sp)) l).
Proof.
  induction l as [|sp l IH]; [done|].
  cbn [sweep List.filter map]. rewrite IH. unfold valid_sp.
  by destruct (v_is_valid (ptr sp)).
Qed.

Lemma filter_filter_same {A : Type} (f : A -> bool) (l : list A) :
  List.filter f (List.filter f l) = List.filter f l.
Proof.
  induction l as [|x l IH]; [done|]. simpl.
  destruct (f x) eqn:Hx; [|done]. simpl. by rewrite Hx, IH.
Qed.

Lemma filter_filter_neg {A : Type} (f : A -> bool) (l : list A) :
  List.filter (fun x => negb (f x)) (List.filter f l) = [].
Proof.
  induction l as [|x l IH]; [done|]. simpl.
  destruct (f x) eqn:Hx; [|done]. simpl. by rewrite Hx.
Qed.

Lemma hook_calls_delete_nothing (p : pool_id) (l : list shared_ptr) :
  deleted (map (fun sp => EvIsValid p (ptr sp) (valid_sp sp)) l) = []
  /\ count is_construction (map (fun sp => EvIsValid p (ptr sp) (valid_sp sp)) l) = 0
  /\ count is_push (map (fun sp => EvIsValid p (ptr sp) (valid_sp sp)) l) = 0.
Proof. induction l as [|sp l IH]; [done|]. exact IH. Qed.

Lemma drop_all_invalid (l : list shared_ptr) :
  forall w : world,
    Forall (fun sp => valid_sp sp = false) l ->
    exists evs, drop_all l w = emit evs w /\ deleted evs = map ptr l /\
                count is_construction evs = 0 /\ count is_push evs = 0.
Proof.
  induction l as [|sp l IH]; intros w Hl.
  - exists []. by rewrite emit_nil.
  - apply Forall_cons in Hl as [Hsp Hl].
    destruct (drop_invalid sp w Hsp) as (e1 & He1 & Hd1 & Hc1 & Hp1).
    destruct (IH (drop sp w) Hl) as (e2 & He2 & Hd2 & Hc2 & Hp2).
    exists (e1 ++ e2). unfold drop_all in *. simpl. rewrite He2, He1, emit_emit.
    rewrite deleted_app, !count_app, Hd1, Hd2, Hc1, Hc2, Hp1, Hp2. done.
Qed.

Lemma filter_neg_invalid (l : list shared_ptr) :
  Forall (fun sp => valid_sp sp = false) (List.filter (fun sp => negb (valid_sp sp)) l).
Proof.
  induction l as [|sp l IH]; [constructor|]. simpl.
  destruct (valid_sp sp) eqn:Hv; simpl; [done|]. by constructor.
Qed.

Lemma erase_invalid_spec (p : pool_id) (w : world) :
  exists evs,
    erase_invalid p w = emit evs (set_items p (List.filter valid_sp (items_of p w)) w)
    /\ deleted evs = map ptr (List.filter (fun sp => negb (valid_sp sp)) (items_of p w))
    /\ count is_construction evs = 0 /\ count is_push evs = 0.
Proof.
  unfold erase_invalid.
  change (items_of p (emit [EvLock p] w)) with (items_of p w).
  rewrite sweep_spec.
  destruct (drop_all_invalid _ (emit [EvUnlock p]
     (set_items p (List.filter valid_sp (items_of p w))
        (emit (map (fun sp => EvIsValid p (ptr sp) (valid_sp sp)) (items_of p w))
           (emit [EvLock p] w)))) (filter_neg_invalid (items_of p w)))
    as (evs & He & Hd & Hc & Hp).
  rewrite He, !set_items_emit, !emit_emit.
  eexists. split; [reflexivity|].
  destruct (hook_calls_delete_nothing p (items_of p w)) as (H1 & H2 & H3).
  rewrite !deleted_app, !count_app, H1, H2, H3, Hd, Hc, Hp. done.
Qed.

Lemma items_of_set_items_filter (p : pool_id) (f : shared_ptr -> bool) (w : world) :
  items_of p (set_items p (List.filter f (items_of p w)) w) = List.filter f (items_of p w).
Proof.
  destruct (pools w !! p) as [po|] eqn:Hp.
  - by apply (items_of_set_items p _ w po).
  - unfold items_of, set_items. simpl. rewrite lookup_alter_eq, Hp. done.
Qed.

(** ** get as a whole *)

Lemma discard_events_read (p : pool_id) (l : list shared_ptr) :
  deleted (flat_map (discard_events p) l) = map ptr l
  /\ count is_factory_call (flat_map (discard_events p) l) = 0
  /\ count is_construction (flat_map (discard_events p) l) = 0
  /\ count is_push (flat_map (discard_events p) l) = 0.
Proof.
  induction l as [|sp l (IH1 & IH2 & IH3 & IH4)]; [done|].
  cbn [flat_map]. rewrite deleted_app, !count_app, IH1, IH2, IH3, IH4. done.
Qed.

Lemma split_last_valid (l : list shared_ptr) :
  Forall (fun y => valid_sp y = false) l
  \/ exists pre sp post,
       l = pre ++ sp :: post /\ valid_sp sp = true /\
       Forall (fun y => valid_sp y = false) post.
Proof.
  induction l as [|x l IH] using rev_ind; [by left|].
  destruct (valid_sp x) eqn:Hx.
  - right. exists l, x, []. done.
  - destruct IH as [IH|(pre & sp & post & -> & Hsp & Hpost)].
    + left. apply Forall_app. split; [done|]. by constructor.
    + right. exists pre, sp, (post ++ [x]). rewrite <- app_assoc. split; [done|].
      split; [done|]. apply Forall_app. split; [done|]. by constructor.
Qed.

Lemma get_found (p : pool_id) (w : world) (po : pool_obj)
    (pre post : list shared_ptr) (sp : shared_ptr) :
  pools w !! p = Some po -> owned po = true ->
  items_ po = pre ++ sp :: post ->
  get_deleter sp <> None -> Forall unbound post ->
  valid_sp sp = true -> Forall (fun y => valid_sp y = false) post ->
  get p w
  = Some (Ok {| ptr := ptr sp; del := pool_deleter (Some p) |},
          emit (flat_map (discard_events p) (rev post)
                ++ [EvLock p; EvPopBack p (ptr sp); EvUnlock p; EvIsValid p (ptr sp) true])
               (set_items p pre w)).
Proof.
  intros Hp Ho Hl Hd Hu Hv Hpost. unfold get. rewrite Hp.
  replace (S (length (items_ po))) with (length post + S (S (length pre)))
    by (rewrite Hl, length_app; simpl; lia).
  assert (Hl' : items_ po = (pre ++ [sp]) ++ post) by (by rewrite <- app_assoc).
  rewrite (get_loop_discard p post (pre ++ [sp]) w po _ Hp Hl' Hu Hpost).
  rewrite (get_loop_found p _ {| owned := owned po; items_ := pre ++ [sp] |} pre sp);
    [|by apply lookup_set_items|done..].
  by rewrite set_items_emit, set_items_set_items, emit_emit.
Qed.

Lemma get_unowned_found (p : pool_id) (w : world) (po : pool_obj)
    (pre post : list shared_ptr) (sp : shared_ptr) :
  pools w !! p = Some po -> owned po = false ->
  items_ po = pre ++ sp :: post ->
  unbound sp -> Forall unbound post ->
  valid_sp sp = true -> Forall (fun y => valid_sp y = false) post ->
  get p w
  = Some (Throw bad_weak_ptr,
          emit (flat_map (discard_events p) (rev post)
                ++ [EvLock p; EvPopBack p (ptr sp); EvUnlock p; EvIsValid p (ptr sp) true;
                    EvResolve None None; EvDelete (ptr sp)])
               (set_items p pre w)).
Proof.
  intros Hp Ho Hl Hd Hu Hv Hpost. unfold get. rewrite Hp.
  replace (S (length (items_ po))) with (length post + S (S (length pre)))
    by (rewrite Hl, length_app; simpl; lia).
  assert (Hl' : items_ po = (pre ++ [sp]) ++ post) by (by rewrite <- app_assoc).
  rewrite (get_loop_discard p post (pre ++ [sp]) w po _ Hp Hl' Hu Hpost).
  rewrite (get_loop_unowned p _ {| owned := owned po; items_ := pre ++ [sp] |} pre sp);
    [|by apply lookup_set_items|done..].
  rewrite (drop_unbound sp _ Hd).
  by rewrite !set_items_emit, set_items_set_items, !emit_emit.
Qed.

Lemma get_exhausted (p : pool_id) (w : world) (po : pool_obj) :
  pools w !! p = Some po ->
  Forall unbound (items_ po) -> Forall (fun y => valid_sp y = false) (items_ po) ->
  get p w
  = Some (create p (emit (flat_map (discard_events p) (rev (items_ po)) ++ [EvLock p; EvUnlock p])
                         (set_items p [] w))).
Proof.
  intros Hp Hu Hv. unfold get. rewrite Hp.
  replace (S (length (items_ po))) with (length (items_ po) + 1) by lia.
  rewrite (get_loop_discard p (items_ po) [] w po 1 Hp eq_refl Hu Hv).
  rewrite get_loop_empty.
  - by rewrite emit_emit.
  - change (items_of p (emit ?a ?w')) with (items_of p w').
    by apply (items_of_set_items p [] w po).
Qed.

Lemma create_spec (p : pool_id) (w : world) (po : pool_obj) (r : E + T) (e' : Env) :
  pools w !! p = Some po -> v_create (env w) = (r, e') ->
  create p w
  = (match r with
     | inl e => Throw (factory_error e)
     | inr x => if owned po
                then Ok {| ptr := x; del := pool_deleter (Some p) |}
                else Throw bad_weak_ptr
     end,
     emit [EvCreate p r] (set_env e' w)).
Proof.
  intros Hp Hc. unfold create. rewrite Hp, Hc. destruct r as [e|x]; [done|].
  unfold shared_from_this.
  change (pools (emit ?a (set_env e' w))) with (pools w).
  rewrite Hp. by destruct (owned po).
Qed.

Lemma create_pools (p : pool_id) (w : world) : pools (create p w).2 = pools w.
Proof.
  unfold create. destruct (pools w !! p) as [po|]; [|done].
  destruct (v_create (env w)) as [[e|x] e']; [done|].
  by destruct (shared_from_this _ _).
Qed.

(** ** Stored control blocks are unbound *)

Lemma stored_unbound_pools (w w' : world) :
  pools w' = pools w -> stored_unbound w -> stored_unbound w'.
Proof. unfold stored_unbound. intros ->. done. Qed.

Lemma stored_unbound_emit (evs : list event) (w : world) :
  stored_unbound w -> stored_unbound (emit evs w).
Proof. done. Qed.

Lemma stored_unbound_set_items (p : pool_id) (l : list shared_ptr) (w : world) :
  stored_unbound w -> Forall unbound l -> stored_unbound (set_items p l w).
Proof.
  intros Hw Hl q po. unfold set_items. simpl. rewrite lookup_alter.
  case_decide as Hpq.
  - destruct (pools w !! p) as [po'|]; [|done]. simpl. by intros [= <-].
  - apply Hw.
Qed.

Lemma stored_unbound_items_of (p : pool_id) (w : world) :
  stored_unbound w -> Forall unbound (items_of p w).
Proof.
  intros Hw. unfold items_of. destruct (pools w !! p) as [po|] eqn:Hp; [|constructor].
  by apply (Hw p).
Qed.

Lemma count_destruction_deleted (tr : list event) :
  count is_destruction tr = length (deleted tr).
Proof.
  unfold count, deleted. induction tr as [|e tr IH]; [done|].
  destruct e; simpl; by rewrite ?IH.
Qed.

(** A release either destroys the item and leaves every pool as it is, or
    appends the item, rewrapped with an empty deleter, to one pool. *)
Lemma drop_cases (sp : shared_ptr) (w : world) :
  (exists evs, drop sp w = emit evs w /\
               count is_destruction evs = 1 /\ count is_construction evs = 0)
  \/ (exists evs p po,
        pools w !! p = Some po /\
        drop sp w = emit evs (set_items p (items_ po ++ [{| ptr := ptr sp; del := pool_deleter None |}]) w) /\
        count is_destruction evs = 0 /\ count is_construction evs = 0).
Proof.
  destruct (del sp) as [pool_|] eqn:Hd.
  - destruct (weak_lock pool_ w) as [p|] eqn:Hl.
    + destruct (v_is_valid (ptr sp)) eqn:Hv.
      * right. destruct (weak_lock_Some _ _ _ Hl) as (_ & po & Hp & _).
        eexists _, p, po. split; [done|].
        rewrite (drop_live_valid sp pool_ p w Hd Hl Hv), (items_of_lookup p w po Hp).
        done.
      * left. rewrite (drop_live_invalid sp pool_ p w Hd Hl Hv). by eexists.
    + left. rewrite (drop_pool_gone sp pool_ w Hd Hl). by eexists.
  - left. unfold drop. rewrite Hd. by eexists.
Qed.

Lemma stored_unbound_drop (sp : shared_ptr) (w : world) :
  stored_unbound w -> stored_unbound (drop sp w).
Proof.
  intros Hw.
  destruct (drop_cases sp w) as [(evs & -> & _)|(evs & p & po & Hp & -> & _)]; [done|].
  apply stored_unbound_emit, stored_unbound_set_items; [done|].
  apply Forall_app. split; [by apply (Hw p)|]. by constructor.
Qed.

Lemma stored_unbound_drop_all (l : list shared_ptr) :
  forall w : world, stored_unbound w -> stored_unbound (drop_all l w).
Proof.
  induction l as [|sp l IH]; intros w Hw; [done|].
  apply (IH (drop sp w)). by apply stored_unbound_drop.
Qed.

Lemma drop_all_unbound (l : list shared_ptr) :
  forall w : world,
    Forall unbound l -> drop_all l w = emit (flat_map direct_delete l) w.
Proof.
  induction l as [|sp l IH]; intros w Hl.
  - by rewrite emit_nil.
  - apply Forall_cons in Hl as [Hsp Hl]. unfold drop_all in *. simpl.
    rewrite (drop_unbound sp w Hsp), (IH _ Hl), emit_emit. done.
Qed.

Lemma Forall_filter_bool {A : Type} (P : A -> Prop) (f : A -> bool) (l : list A) :
  Forall P l -> Forall P (List.filter f l).
Proof.
  induction 1 as [|x l Hx Hl IH]; [constructor|]. simpl.
  destruct (f x); [by constructor|done].
Qed.

Lemma stored_unbound_create (p : pool_id) (w : world) :
  stored_unbound w -> stored_unbound (create p w).2.
Proof. apply stored_unbound_pools, create_pools. Qed.

(** What [get] does to the pools, whoever owns the pool: it keeps a front
    part of the storage and nothing else changes. *)
Lemma get_pools (p : pool_id) (w : world) (po : pool_obj) :
  pools w !! p = Some po -> Forall unbound (items_ po) ->
  exists r w' pre post,
    get p w = Some (r, w') /\ items_ po = pre ++ post /\
    pools w' = pools (set_items p pre w).
Proof.
  intros Hp Hu.
  destruct (split_last_valid (items_ po)) as [Hv|(pre & sp & post & Hl & Hsp & Hpost)].
  - rewrite (get_exhausted p w po Hp Hu Hv).
    destruct (create p _) as [r w'] eqn:Hc.
    exists r, w', [], (items_ po). split; [done|]. split; [done|].
    change w' with (r, w').2. rewrite <- Hc. by rewrite create_pools.
  - rewrite Hl in Hu. apply Forall_app in Hu as [Hpre Hu].
    apply Forall_cons in Hu as [Hu1 Hu2].
    destruct (owned po) eqn:Ho.
    + rewrite (get_found p w po pre post sp Hp Ho Hl); [|by unfold get_deleter; rewrite Hu1|done..].
      eexists _, _, pre, (sp :: post). done.
    + rewrite (get_unowned_found p w po pre post sp Hp Ho Hl); [|done..].
      eexists _, _, pre, (sp :: post). done.
Qed.

Lemma stored_unbound_get (p : pool_id) (w w' : world) (r : outcome E shared_ptr) :
  stored_unbound w -> get p w = Some (r, w') -> stored_unbound w'.
Proof.
  intros Hw Hg. destruct (pools w !! p) as [po|] eqn:Hp.
  - destruct (get_pools p w po Hp (Hw p po Hp)) as (r' & w'' & pre & post & Hg' & Hl & Hpools).
    rewrite Hg in Hg'. injection Hg' as <- <-.
    apply (stored_unbound_pools (set_items p pre w)); [done|].
    apply stored_unbound_set_items; [done|].
    pose proof (Hw p po Hp) as Hu. rewrite Hl in Hu. by apply Forall_app in Hu as [? _].
  - unfold get in Hg. rewrite Hp in Hg. by injection Hg as <- <-.
Qed.

Lemma stored_unbound_erase_invalid (p : pool_id) (w : world) :
  stored_unbound w -> stored_unbound (erase_invalid p w).
Proof.
  intros Hw. destruct (erase_invalid_spec p w) as (evs & -> & _).
  apply stored_unbound_emit, stored_unbound_set_items; [done|].
  by apply Forall_filter_bool, stored_unbound_items_of.
Qed.

Lemma stored_unbound_new_pool (w : world) :
  stored_unbound w -> stored_unbound (new_pool w).
Proof.
  intros Hw q po. unfold new_pool. simpl. rewrite lookup_insert.
  case_decide; [|apply Hw]. intros [= <-]. constructor.
Qed.

Lemma destroy_pool_unbound (p : pool_id) (w : world) :
  stored_unbound w ->
  destroy_pool p w
  = {| pools := delete p (pools w); next_id := next_id w; env := env w;
       trace := trace w ++ flat_map direct_delete (items_of p w) |}.
Proof.
  intros Hw. unfold destroy_pool.
  rewrite drop_all_unbound by (by apply stored_unbound_items_of).
  unfold emit. simpl. f_equal.
  apply map_eq. intros q. rewrite !lookup_delete, lookup_alter.
  by repeat case_decide.
Qed.

Lemma stored_unbound_destroy_pool (p : pool_id) (w : world) :
  stored_unbound w -> stored_unbound (destroy_pool p w).
Proof.
  intros Hw. rewrite (destroy_pool_unbound p w Hw).
  intros q po. simpl. rewrite lookup_delete. case_decide; [done|]. apply Hw.
Qed.

Lemma stored_unbound_expire (p : pool_id) (w : world) :
  stored_unbound w -> stored_unbound (expire p w).
Proof.
  intros Hw q po. unfold expire. simpl. rewrite lookup_alter.
  case_decide as Hpq; [|apply Hw]. subst q.
  destruct (pools w !! p) as [po'|] eqn:Hp; [|done]. simpl.
  intros [= <-]. simpl. by apply (Hw p).
Qed.

Lemma stored_unbound_step (o : op) (s : sys) :
  stored_unbound (sw s) -> stored_unbound (sw (step o s)).
Proof.
  intros Hs. destruct o as [|p|p|p|p|i|i p|i|p|x|i x|p i x]; cbn [step sw].
  - by apply stored_unbound_new_pool.
  - by apply stored_unbound_destroy_pool.
  - by apply stored_unbound_expire.
  - pose proof (stored_unbound_create p (sw s) Hs) as Hc.
    destruct (create p (sw s)) as [[sp|e|f] w']; exact Hc.
  - destruct (get p (sw s)) as [[r w']|] eqn:Hg; [|done].
    pose proof (stored_unbound_get p (sw s) w' r Hs Hg) as Hc.
    by destruct r.
  - destruct (handles s !! i); [|done]. simpl. by apply stored_unbound_drop.
  - destruct (handles s !! i); [|done].
    destruct (weak_lock (Some p) (sw s)); [|done].
    by destruct (attach _ _).
  - destruct (handles s !! i); [|done]. by destruct (detach _).
  - by apply stored_unbound_erase_invalid.
  - done.
  - done.
  - apply stored_unbound_set_items; [done|].
    apply Forall_alter; [by apply stored_unbound_items_of|].
    intros sp _ Hsp. exact Hsp.
Qed.

Lemma stored_unbound_run (ops : list op) :
  forall s : sys, stored_unbound (sw s) -> stored_unbound (sw (run ops s)).
Proof.
  induction ops as [|o ops IH]; intros s Hs; [done|].
  apply (IH (step o s)). by apply stored_unbound_step.
Qed.

Lemma stored_unbound_init (e : Env) : stored_unbound (sw (init e)).
Proof. intros p po. simpl. by rewrite lookup_empty. Qed.

(** ** Conservation *)

Lemma sole_pool_pools (p : pool_id) (w w' : world) :
  pools w' = pools w -> sole_pool p w -> sole_pool p w'.
Proof. unfold sole_pool. intros ->. done. Qed.

Lemma sole_pool_emit (p : pool_id) (evs : list event) (w : world) :
  sole_pool p w -> sole_pool p (emit evs w).
Proof. done. Qed.

Lemma sole_pool_set_items (p : pool_id) (l : list shared_ptr) (w : world) :
  sole_pool p w -> sole_pool p (set_items p l w).
Proof.
  intros [(po & Hp & Ho) Hq]. split.
  - eexists. split; [by apply lookup_set_items|done].
  - intros q Hne. rewrite lookup_set_items_ne by done. by apply Hq.
Qed.

Lemma balanced_update (p : pool_id) (s : sys) (po : pool_obj)
    (hs' : list shared_ptr) (w' : world) (evs : list event) :
  balanced p s -> pools (sw s) !! p = Some po ->
  trace w' = trace (sw s) ++ evs ->
  length hs' + length (items_of p w') + count is_destruction evs
  = length (handles s) + length (items_ po) + count is_construction evs ->
  balanced p {| sw := w'; handles := hs' |}.
Proof.
  unfold balanced. intros Hb Hp Htr Heq. simpl.
  rewrite (items_of_lookup p (sw s) po Hp) in Hb.
  rewrite Htr, !count_app. lia.
Qed.

Lemma conserving_create (p : pool_id) (s : sys) :
  conserving p s -> conserving p (returned (create p (sw s)) s).
Proof.
  intros (Hsole & Hu & Hb).
  destruct Hsole as [(po & Hp & Ho) Hq].
  destruct (v_create (env (sw s))) as [r e'] eqn:Hc.
  rewrite (create_spec p (sw s) po r e' Hp Hc).
  assert (Hs' : sole_pool p (emit [EvCreate p r] (set_env e' (sw s)))) by (split; eauto).
  destruct r as [e|x]; [|rewrite Ho]; simpl; (split; [exact Hs'|split; [exact Hu|]]).
  - apply (balanced_update p s po _ _ [EvCreate p (inl e)] Hb Hp); [done|].
    change (items_of p (emit ?a (set_env e' (sw s)))) with (items_of p (sw s)).
    rewrite (items_of_lookup p (sw s) po Hp). done.
  - apply (balanced_update p s po _ _ [EvCreate p (inr x)] Hb Hp); [done|].
    change (items_of p (emit ?a (set_env e' (sw s)))) with (items_of p (sw s)).
    rewrite (items_of_lookup p (sw s) po Hp), length_app. simpl.
    unfold count. simpl. lia.
Qed.

Lemma conserving_get (p : pool_id) (s : sys) :
  conserving p s ->
  exists r, get p (sw s) = Some r /\ conserving p (returned r s).
Proof.
  intros (Hsole & Hu & Hb).
  destruct Hsole as [(po & Hp & Ho) Hq].
  pose proof (Hu p po Hp) as Hupo.
  destruct (split_last_valid (items_ po)) as [Hv|(pre & sp & post & Hl & Hsp & Hpost)].
  - rewrite (get_exhausted p (sw s) po Hp Hupo Hv). eexists. split; [reflexivity|].
    set (evs := flat_map (discard_events p) (rev (items_ po)) ++ [EvLock p; EvUnlock p]).
    set (w1 := emit evs (set_items p [] (sw s))).
    assert (Hp1 : pools w1 !! p = Some {| owned := owned po; items_ := [] |})
      by (by apply lookup_set_items).
    destruct (v_create (env w1)) as [r e'] eqn:Hc.
    rewrite (create_spec p w1 _ r e' Hp1 Hc).
    assert (Hs' : sole_pool p (emit [EvCreate p r] (set_env e' w1))).
    { apply (sole_pool_pools p (set_items p [] (sw s))); [done|].
      apply sole_pool_set_items. split; eauto. }
    assert (Hu' : stored_unbound (emit [EvCreate p r] (set_env e' w1))).
    { apply (stored_unbound_pools (set_items p [] (sw s))); [done|].
      by apply stored_unbound_set_items. }
    assert (Hi : items_of p (emit [EvCreate p r] (set_env e' w1)) = []).
    { change (items_of p (set_items p [] (sw s)) = []).
      by apply (items_of_set_items p [] (sw s) po). }
    destruct (discard_events_read p (rev (items_ po))) as (Hd1 & _ & Hd3 & _).
    assert (Hde : count is_destruction evs = length (items_ po)).
    { unfold evs. rewrite count_app, count_destruction_deleted, Hd1.
      rewrite length_map, length_rev. unfold count. simpl. lia. }
    assert (Hco : count is_construction evs = 0).
    { unfold evs. rewrite count_app, Hd3. done. }
    destruct r as [e|x]; cbn [owned]; [|rewrite Ho]; cbn [returned];
      (split; [exact Hs'|split; [exact Hu'|]]).
    + apply (balanced_update p s po _ _ (evs ++ [EvCreate p (inl e)]) Hb Hp).
      * simpl. by rewrite app_assoc.
      * rewrite Hi, !count_app, Hde, Hco. unfold count. simpl. lia.
    + apply (balanced_update p s po _ _ (evs ++ [EvCreate p (inr x)]) Hb Hp).
      * simpl. by rewrite app_assoc.
      * rewrite Hi, !count_app, Hde, Hco, length_app. unfold count. simpl. lia.
  - split_unbound Hupo Hl Hupre Husp Hupost.
    rewrite (get_found p (sw s) po pre post sp Hp Ho Hl);
      [|by unfold get_deleter; rewrite Husp|done..].
    eexists. split; [reflexivity|]. cbn [returned].
    split; [|split].
    + apply (sole_pool_pools p (set_items p pre (sw s))); [done|].
      apply sole_pool_set_items. split; eauto.
    + by apply stored_unbound_emit, stored_unbound_set_items.
    + destruct (discard_events_read p (rev post)) as (Hd1 & _ & Hd3 & _).
      eapply (balanced_update p s po _ _ _ Hb Hp); [reflexivity|].
      change (items_of p (emit ?a ?w1)) with (items_of p w1).
      rewrite (items_of_set_items p pre (sw s) po Hp).
      rewrite !count_app, count_destruction_deleted, Hd1, Hd3.
      rewrite Hl, !length_app, length_map, length_rev. unfold count. simpl. lia.
Qed.

Lemma conserving_release (p : pool_id) (s : sys) (i : nat) (sp : shared_ptr) :
  conserving p s -> handles s !! i = Some sp ->
  conserving p {| sw := drop sp (sw s); handles := delete i (handles s) |}.
Proof.
  intros (Hsole & Hu & Hb) Hi.
  pose proof (stored_unbound_drop sp (sw s) Hu) as Hu'.
  pose proof (lookup_lt_Some _ _ _ Hi) as Hlt.
  assert (Hlen : length (delete i (handles s)) = length (handles s) - 1)
    by (apply length_delete; eauto).
  destruct Hsole as [(po & Hp & Ho) Hq].
  destruct (drop_cases sp (sw s)) as [(evs & He & Hd & Hc)|(evs & q & po' & Hp' & He & Hd & Hc)].
  - split; [|split; [done|]].
    + rewrite He. split; eauto.
    + apply (balanced_update p s po _ _ evs Hb Hp); [by rewrite He|].
      rewrite He. change (items_of p (emit evs (sw s))) with (items_of p (sw s)).
      rewrite (items_of_lookup p (sw s) po Hp), Hlen, Hd, Hc. lia.
  - assert (q = p) as ->.
    { destruct (decide (q = p)) as [|Hne]; [done|]. rewrite (Hq q Hne) in Hp'. done. }
    rewrite Hp in Hp'. injection Hp' as <-.
    split; [|split; [done|]].
    + rewrite He. apply sole_pool_emit, sole_pool_set_items. split; eauto.
    + apply (balanced_update p s po _ _ evs Hb Hp); [by rewrite He|].
      rewrite He. change (items_of p (emit evs ?w1)) with (items_of p w1).
      rewrite (items_of_set_items p _ (sw s) po Hp), length_app, Hlen, Hd, Hc.
      simpl. lia.
Qed.

Lemma conserving_step (p : pool_id) (o : op) (s : sys) :
  conserving p s -> pool_call p o = true -> conserving p (step o s).
Proof.
  intros Hs Ho. destruct o as [|q|q|q|q|i|i q|i|q|x|i x|q i x]; try done; cbn [step].
  - apply Nat.eqb_eq in Ho as ->. by apply conserving_create.
  - apply Nat.eqb_eq in Ho as ->.
    destruct (conserving_get p s Hs) as (r & -> & Hr). exact Hr.
  - destruct (handles s !! i) as [sp|] eqn:Hi; [|done].
    by apply conserving_release.
  - destruct Hs as (Hsole & Hu & Hb). split; [done|split; [done|]].
    unfold balanced in *. simpl. by rewrite length_alter.
  - apply Nat.eqb_eq in Ho as ->.
    destruct Hs as (Hsole & Hu & Hb). split; [|split].
    + by apply sole_pool_set_items.
    + apply stored_unbound_set_items; [done|].
      apply Forall_alter; [by apply stored_unbound_items_of|].
      intros sp _ Hsp. exact Hsp.
    + destruct Hsole as [(po & Hp & _) _].
      apply (balanced_update p s po _ _ [] Hb Hp); [simpl; by rewrite app_nil_r|].
      rewrite (items_of_set_items p _ (sw s) po Hp), length_alter.
      rewrite (items_of_lookup p (sw s) po Hp). done.
Qed.

Lemma conserving_run (p : pool_id) (ops : list op) :
  forall s : sys,
    conserving p s -> Forall (fun o => pool_call p o = true) ops ->
    conserving p (run ops s).
Proof.
  induction ops as [|o ops IH]; intros s Hs Hops; [done|].
  apply Forall_cons in Hops as [Ho Hops].
  apply (IH (step o s)); [|done]. by apply conserving_step.
Qed.

Lemma conserving_start (e : Env) : conserving 0 (step OpNewPool (init e)).
Proof.
  split; [|split].
  - split.
    + eexists. split; [apply lookup_insert_eq|done].
    + intros q Hq. simpl. by rewrite lookup_insert_ne.
  - apply stored_unbound_new_pool, stored_unbound_init.
  - done.
Qed.

(** ** Serving several items in a row *)

Lemma filter_all_invalid (l : list shared_ptr) :
  Forall (fun y => valid_sp y = false) l -> List.filter valid_sp l = [].
Proof.
  induction 1 as [|x l Hx Hl IH]; [done|]. simpl. by rewrite Hx.
Qed.

Lemma get_n_lifo (p : pool_id) (n : nat) :
  forall (w : world) (po : pool_obj),
    pools w !! p = Some po -> owned po = true -> Forall unbound (items_ po) ->
    n <= length (List.filter valid_sp (items_ po)) ->
    map ptr (get_n n p w).1 = take n (rev (map ptr (List.filter valid_sp (items_ po))))
    /\ Forall (fun sp => del sp = pool_deleter (Some p)) (get_n n p w).1
    /\ count is_factory_call (trace (get_n n p w).2) = count is_factory_call (trace w)
    /\ items_of p (get_n n p w).2 `prefix_of` items_ po.
Proof.
  induction n as [|n IH]; intros w po Hp Ho Hu Hn.
  - simpl. rewrite (items_of_lookup p w po Hp). done.
  - destruct (split_last_valid (items_ po)) as [Hv|(pre & sp & post & Hl & Hsp & Hpost)].
    { rewrite (filter_all_invalid _ Hv) in Hn. simpl in Hn. lia. }
    split_unbound Hu Hl Hupre Husp Hupost.
    cbn [get_n].
    rewrite (get_found p w po pre post sp Hp Ho Hl);
      [|by unfold get_deleter; rewrite Husp|done..].
    set (w1 := emit _ (set_items p pre w)).
    assert (Hfil : List.filter valid_sp (items_ po) = List.filter valid_sp pre ++ [sp]).
    { rewrite Hl, List.filter_app. simpl. by rewrite Hsp, (filter_all_invalid _ Hpost). }
    rewrite Hfil, length_app in Hn. simpl in Hn.
    destruct (IH w1 {| owned := owned po; items_ := pre |}) as (H1 & H2 & H3 & H4);
      [by apply lookup_set_items|done|done|simpl; lia|].
    destruct (get_n n p w1) as [l w2]. simpl in *.
    rewrite Hfil, map_app, rev_app_distr. simpl. rewrite H1.
    split; [done|]. split; [by constructor|]. split.
    + rewrite H3. unfold w1. simpl. rewrite count_app.
      destruct (discard_events_read p (rev post)) as (_ & Hf & _).
      rewrite count_app, Hf. unfold count. simpl. lia.
    + rewrite Hl. by apply prefix_app_r.
Qed.

(** ** What stays true of stored items *)

Lemma erase_invalid_unbound (p : pool_id) (w : world) :
  stored_unbound w ->
  erase_invalid p w
  = emit ([EvLock p] ++ map (hook_call p) (items_of p w) ++ [EvUnlock p]
          ++ flat_map direct_delete
               (List.filter (fun sp => negb (valid_sp sp)) (items_of p w)))
         (set_items p (List.filter valid_sp (items_of p w)) w).
Proof.
  intros Hw. unfold erase_invalid.
  change (items_of p (emit [EvLock p] w)) with (items_of p w).
  rewrite sweep_spec.
  rewrite drop_all_unbound by (by apply Forall_filter_bool, stored_unbound_items_of).
  by rewrite !set_items_emit, !emit_emit.
Qed.

Lemma get_serves_bound (p : pool_id) (w w' : world) (sp : shared_ptr) :
  stored_unbound w -> get p w = Some (Ok sp, w') -> del sp = pool_deleter (Some p).
Proof.
  intros Hw. destruct (pools w !! p) as [po|] eqn:Hp.
  - pose proof (Hw p po Hp) as Hu.
    destruct (split_last_valid (items_ po)) as [Hv|(pre & x & post & Hl & Hx & Hpost)].
    + rewrite (get_exhausted p w po Hp Hu Hv).
      set (w1 := emit _ (set_items p [] w)).
      assert (Hp1 : pools w1 !! p = Some {| owned := owned po; items_ := [] |})
        by (by apply lookup_set_items).
      destruct (v_create (env w1)) as [r e'] eqn:Hc.
      rewrite (create_spec p w1 _ r e' Hp1 Hc).
      destruct r as [e|y]; [done|]. simpl. destruct (owned po); [|done].
      by intros [= <- _].
    + split_unbound Hu Hl Hupre Hux Hupost.
      destruct (owned po) eqn:Ho.
      * rewrite (get_found p w po pre post x Hp Ho Hl);
          [|by unfold get_deleter; rewrite Hux|done..].
        by intros [= <- _].
      * by rewrite (get_unowned_found p w po pre post x Hp Ho Hl).
  - unfold get. by rewrite Hp.
Qed.

(** ** The claims *)

(** C1 (amended).  When the last strong reference to a handle goes away, the
    weak pool association is resolved first.  If it is empty or the pool is
    gone, the item is destroyed and the validity hook is not called.  If it
    resolves to a live pool, the validity hook is called next: an item it
    rejects is destroyed; an item it accepts is rewrapped and appended to the
    storage of that pool between locking and unlocking its mutex. *)
Theorem C1_release_resolves_then_validates
    (pool_ : option pool_id) (item : T) (w : world) :
  drop {| ptr := item; del := pool_deleter pool_ |} w
  = match weak_lock pool_ w with
    | None => emit [EvResolve pool_ None; EvDelete item] w
    | Some p =>
        if v_is_valid item
        then emit [EvResolve pool_ (Some p); EvIsValid p item true;
                   EvLock p; EvPushBack p item; EvUnlock p]
                  (set_items p (items_of p w ++ [{| ptr := item; del := pool_deleter None |}]) w)
        else emit [EvResolve pool_ (Some p); EvIsValid p item false; EvDelete item] w
    end.
Proof.
  destruct (weak_lock pool_ w) as [p|] eqn:Hl.
  - destruct (v_is_valid item) eqn:Hv.
    + by apply (drop_live_valid {| ptr := item; del := pool_deleter pool_ |}).
    + by apply (drop_live_invalid {| ptr := item; del := pool_deleter pool_ |}).
  - by apply (drop_pool_gone {| ptr := item; del := pool_deleter pool_ |}).
Qed.

(** C2.  On a pool that a shared pointer owns, [get] pops the stored items
    from the back, one pop under the lock per round.  Every item the hook
    rejects on the way is destroyed and not put back.  The first item the
    hook accepts is returned in a handle bound to this pool, the items in
    front of it stay stored, and the factory is not called.  When the hook
    rejects all stored items the storage ends empty and [get] returns what
    [create] returns, with exactly one call of the factory.  One of the two
    cases always applies. *)
Theorem C2_get_pops_until_valid (p : pool_id) (w : world) (po : pool_obj) :
  pools w !! p = Some po -> owned po = true -> Forall unbound (items_ po) ->
  (Forall (fun y => valid_sp y = false) (items_ po)
   \/ exists pre sp post,
        items_ po = pre ++ sp :: post /\ valid_sp sp = true /\
        Forall (fun y => valid_sp y = false) post)
  /\ (forall pre sp post,
        items_ po = pre ++ sp :: post -> valid_sp sp = true ->
        Forall (fun y => valid_sp y = false) post ->
        exists w',
          get p w = Some (Ok {| ptr := ptr sp; del := pool_deleter (Some p) |}, w')
          /\ w' = emit (flat_map (discard_events p) (rev post)
                        ++ [EvLock p; EvPopBack p (ptr sp); EvUnlock p;
                            EvIsValid p (ptr sp) true])
                       (set_items p pre w)
          /\ items_of p w' = pre
          /\ deleted (trace w') = deleted (trace w) ++ map ptr (rev post)
          /\ count is_push (trace w') = count is_push (trace w)
          /\ count is_factory_call (trace w') = count is_factory_call (trace w))
  /\ (Forall (fun y => valid_sp y = false) (items_ po) ->
        exists w1,
          get p w = Some (create p w1)
          /\ w1 = emit (flat_map (discard_events p) (rev (items_ po))
                        ++ [EvLock p; EvUnlock p])
                       (set_items p [] w)
          /\ items_of p w1 = []
          /\ deleted (trace w1) = deleted (trace w) ++ map ptr (rev (items_ po))
          /\ count is_push (trace (create p w1).2) = count is_push (trace w)
          /\ count is_factory_call (trace (create p w1).2)
             = S (count is_factory_call (trace w))).
Proof.
  intros Hp Ho Hu. split; [apply split_last_valid|]. split.
  - intros pre sp post Hl Hsp Hpost.
    split_unbound Hu Hl Hupre Husp Hupost.
    eexists. split.
    { apply (get_found p w po pre post sp Hp Ho Hl); [|done..].
      by unfold get_deleter; rewrite Husp. }
    split; [reflexivity|].
    destruct (discard_events_read p (rev post)) as (Hd1 & Hd2 & _ & Hd4).
    split; [by apply (items_of_set_items p pre w po)|].
    simpl. rewrite !deleted_app, !count_app, Hd1, Hd2, Hd4.
    unfold count. simpl. rewrite app_nil_r. split; [done|]. split; lia.
  - intros Hv. eexists. split; [by apply get_exhausted|]. split; [reflexivity|].
    set (evs := flat_map (discard_events p) (rev (items_ po)) ++ [EvLock p; EvUnlock p]).
    set (w1 := emit evs (set_items p [] w)).
    assert (Hp1 : pools w1 !! p = Some {| owned := owned po; items_ := [] |})
      by (by apply lookup_set_items).
    destruct (discard_events_read p (rev (items_ po))) as (Hd1 & Hd2 & _ & Hd4).
    split; [by apply (items_of_set_items p [] w po)|].
    split.
    { unfold w1, evs. simpl. rewrite !deleted_app, Hd1. simpl. by rewrite app_nil_r. }
    destruct (v_create (env w1)) as [r e'] eqn:Hc.
    rewrite (create_spec p w1 _ r e' Hp1 Hc). unfold w1, evs. simpl.
    rewrite !count_app, Hd2, Hd4. unfold count. simpl. lia.
Qed.

(** C3.  Two valid items [a] and [b], released in this order into the
    empty storage of a live pool, come back as [b] and then [a] from the next
    two calls of [get], and the factory is not called.  In general, [n] calls
    of [get] in a row serve the last [n] stored items the hook accepts,
    latest first, in handles bound to the pool, without a call of the
    factory, and what stays stored is a front part of the storage in its
    old order. *)
Theorem C3_lifo_reuse (p : pool_id) (w : world) (po : pool_obj) :
  pools w !! p = Some po -> owned po = true -> Forall unbound (items_ po) ->
  (forall a b : T,
     items_ po = [] -> v_is_valid a = true -> v_is_valid b = true ->
     let w2 := drop {| ptr := b; del := pool_deleter (Some p) |}
                 (drop {| ptr := a; del := pool_deleter (Some p) |} w) in
     exists w3 w4,
       get p w2 = Some (Ok {| ptr := b; del := pool_deleter (Some p) |}, w3)
       /\ get p w3 = Some (Ok {| ptr := a; del := pool_deleter (Some p) |}, w4)
       /\ items_of p w4 = []
       /\ count is_factory_call (trace w4) = count is_factory_call (trace w))
  /\ (forall n,
        n <= length (List.filter valid_sp (items_ po)) ->
        map ptr (get_n n p w).1 = take n (rev (map ptr (List.filter valid_sp (items_ po))))
        /\ Forall (fun sp => del sp = pool_deleter (Some p)) (get_n n p w).1
        /\ count is_factory_call (trace (get_n n p w).2) = count is_factory_call (trace w)
        /\ items_of p (get_n n p w).2 `prefix_of` items_ po).
Proof.
  intros Hp Ho Hu. split; [|intros n Hn; by apply get_n_lifo].
  intros a b Hl Ha Hb w2.
  set (ua := {| ptr := a; del := pool_deleter None |}).
  set (ub := {| ptr := b; del := pool_deleter None |}).
  pose proof (weak_lock_live p w po Hp Ho) as Hlock.
  pose proof (drop_live_valid {| ptr := a; del := pool_deleter (Some p) |}
                (Some p) p w eq_refl Hlock Ha) as Hda.
  rewrite (items_of_lookup p w po Hp), Hl in Hda. simpl in Hda.
  set (w1 := drop {| ptr := a; del := pool_deleter (Some p) |} w) in *.
  assert (Hp1 : pools w1 !! p = Some {| owned := owned po; items_ := [ua] |}).
  { rewrite Hda. by apply lookup_set_items. }
  pose proof (weak_lock_live p w1 _ Hp1 Ho) as Hlock1.
  pose proof (drop_live_valid {| ptr := b; del := pool_deleter (Some p) |}
                (Some p) p w1 eq_refl Hlock1 Hb) as Hdb.
  rewrite (items_of_lookup p w1 _ Hp1) in Hdb. simpl in Hdb. fold w2 in Hdb.
  assert (Hp2 : pools w2 !! p = Some {| owned := owned po; items_ := [ua; ub] |}).
  { rewrite Hdb. by apply (lookup_set_items p [ua; ub] w1 _ Hp1). }
  pose proof (get_found p w2 _ [ua] [] ub Hp2 Ho eq_refl) as Hg2.
  simpl in Hg2. specialize (Hg2 ltac:(done) ltac:(constructor) Hb ltac:(constructor)).
  set (w3 := emit _ (set_items p [ua] w2)) in Hg2.
  assert (Hp3 : pools w3 !! p = Some {| owned := owned po; items_ := [ua] |}).
  { by apply (lookup_set_items p [ua] w2 _ Hp2). }
  pose proof (get_found p w3 _ [] [] ua Hp3 Ho eq_refl) as Hg3.
  simpl in Hg3. specialize (Hg3 ltac:(done) ltac:(constructor) Ha ltac:(constructor)).
  eexists _, _. split; [exact Hg2|]. split; [exact Hg3|]. split.
  - change (items_of p (set_items p [] w3) = []).
    by apply (items_of_set_items p [] w3 _ Hp3).
  - unfold w3. simpl. rewrite Hdb. simpl. rewrite Hda. simpl.
    rewrite !count_app. unfold count. simpl. lia.
Qed.

(** C4 (amended).  [attach] works on a handle that carries the deleter of
    the pool class, that is a handle some pool made, bound, detached or
    bound to another pool: it binds the handle to the given pool, and if
    that pool is alive when the handle is released and the hook accepts the
    item, the item is appended to the storage of that pool.  On a handle
    with any other deleter, such as one from [std::make_shared], the
    assertion fails and nothing is bound. *)
Theorem C4_attach_needs_pool_deleter (sp : shared_ptr) (p : pool_id) (w : world) :
  match get_deleter sp with
  | Some _ =>
      attach sp p = Ok {| ptr := ptr sp; del := pool_deleter (Some p) |}
      /\ (weak_lock (Some p) w = Some p -> v_is_valid (ptr sp) = true ->
          items_of p (drop {| ptr := ptr sp; del := pool_deleter (Some p) |} w)
          = items_of p w ++ [{| ptr := ptr sp; del := pool_deleter None |}])
  | None =>
      attach sp p = Abort assert_failed
  end.
Proof.
  unfold attach. destruct (get_deleter sp) as [pool_|]; [|done].
  split; [done|]. intros Hl Hv.
  rewrite (drop_live_valid {| ptr := ptr sp; del := pool_deleter (Some p) |}
             (Some p) p w eq_refl Hl Hv).
  destruct (weak_lock_Some _ _ _ Hl) as (_ & po & Hp & _).
  change (items_of p (emit ?a ?w1)) with (items_of p w1).
  by apply (items_of_set_items p _ w po).
Qed.

(** C5 (amended).  [create] never changes any storage, whether the factory
    succeeds or not, and a failure of the factory reaches the caller as it
    was thrown.  When the factory fails in the fallback of [get], the
    failure reaches the caller as it was thrown as well; by then [get] has
    popped and destroyed every stored item, all of them rejected by the
    hook, and they stay removed: the storage is empty afterwards, so it is
    as before the call exactly when it was empty before. *)
Theorem C5_factory_failure (p : pool_id) (w : world) (po : pool_obj) (e : E) (e' : Env) :
  pools w !! p = Some po -> v_create (env w) = (inl e, e') ->
  (forall q w0, pools (create q w0).2 = pools w0)
  /\ create p w = (Throw (factory_error e), emit [EvCreate p (inl e)] (set_env e' w))
  /\ (Forall unbound (items_ po) -> Forall (fun y => valid_sp y = false) (items_ po) ->
      exists w',
        get p w = Some (Throw (factory_error e), w')
        /\ pools w' = pools (set_items p [] w)
        /\ items_of p w' = []
        /\ deleted (trace w') = deleted (trace w) ++ map ptr (rev (items_ po))
        /\ (items_ po = [] -> pools w' = pools w)).
Proof.
  intros Hp Hc. split; [intros q w0; apply create_pools|]. split.
  - by rewrite (create_spec p w po (inl e) e' Hp Hc).
  - intros Hu Hv. rewrite (get_exhausted p w po Hp Hu Hv).
    set (evs := flat_map (discard_events p) (rev (items_ po)) ++ [EvLock p; EvUnlock p]).
    set (w1 := emit evs (set_items p [] w)).
    assert (Hp1 : pools w1 !! p = Some {| owned := owned po; items_ := [] |})
      by (by apply lookup_set_items).
    rewrite (create_spec p w1 _ (inl e) e' Hp1 Hc).
    eexists. split; [reflexivity|]. split; [done|]. split.
    { change (items_of p (set_items p [] w) = []). by apply (items_of_set_items p [] w po). }
    destruct (discard_events_read p (rev (items_ po))) as (Hd1 & _).
    split.
    + unfold w1, evs. simpl. rewrite !deleted_app, Hd1. simpl. by rewrite !app_nil_r.
    + intros Hl. simpl. apply alter_id. intros po' Hpo'.
      rewrite Hp in Hpo'. injection Hpo' as <-. rewrite <- Hl. by destruct po.
Qed.

(** C6.  [erase_invalid] keeps exactly the stored items the hook accepts,
    in their order, destroys exactly the ones it rejects, and touches no
    other pool.  A second call right after the first changes no storage and
    destroys nothing. *)
Theorem C6_erase_invalid_filters (p : pool_id) (w : world) :
  let w1 := erase_invalid p w in
  let w2 := erase_invalid p w1 in
  items_of p w1 = List.filter valid_sp (items_of p w)
  /\ deleted (trace w1)
     = deleted (trace w)
       ++ map ptr (List.filter (fun sp => negb (valid_sp sp)) (items_of p w))
  /\ pools w1 = pools (set_items p (List.filter valid_sp (items_of p w)) w)
  /\ pools w2 = pools w1
  /\ deleted (trace w2) = deleted (trace w1).
Proof.
  intros w1 w2.
  destruct (erase_invalid_spec p w) as (evs & He & Hd & _).
  destruct (erase_invalid_spec p w1) as (evs2 & He2 & Hd2 & _).
  fold w1 in He. fold w2 in He2.
  assert (Hi : items_of p w1 = List.filter valid_sp (items_of p w)).
  { rewrite He. apply items_of_set_items_filter. }
  split; [exact Hi|]. split.
  { rewrite He. simpl. by rewrite deleted_app, Hd. }
  split; [by rewrite He|].
  rewrite Hi, filter_filter_same in He2. rewrite Hi, filter_filter_neg in Hd2.
  split.
  - rewrite He2. rewrite He at 2. rewrite He.
    change (pools (set_items p (List.filter valid_sp (items_of p w))
                     (set_items p (List.filter valid_sp (items_of p w)) w))
            = pools (set_items p (List.filter valid_sp (items_of p w)) w)).
    by rewrite set_items_set_items.
  - rewrite He2. simpl. rewrite deleted_app, Hd2. simpl. by rewrite app_nil_r.
Qed.

(** C7.  The release of a handle whose pool association does not resolve
    to a live pool destroys the item, changes no storage and ends normally.
    The association does not resolve once the pool has been destroyed, and
    a detached handle has an empty association, so its release destroys the
    item in every world. *)
Theorem C7_release_without_pool (sp : shared_ptr) (pool_ : option pool_id) (w : world) :
  del sp = pool_deleter pool_ ->
  (weak_lock pool_ w = None ->
   drop sp w = emit [EvResolve pool_ None; EvDelete (ptr sp)] w
   /\ pools (drop sp w) = pools w
   /\ deleted (trace (drop sp w)) = deleted (trace w) ++ [ptr sp]
   /\ count is_push (trace (drop sp w)) = count is_push (trace w))
  /\ (forall p w0, weak_lock (Some p) (destroy_pool p w0) = None)
  /\ detach sp = (Ok {| ptr := ptr sp; del := pool_deleter None |} : outcome E shared_ptr)
  /\ (forall w0, drop {| ptr := ptr sp; del := pool_deleter None |} w0
                 = emit [EvResolve None None; EvDelete (ptr sp)] w0).
Proof.
  intros Hd. split; [|split; [|split]].
  - intros Hl. rewrite (drop_pool_gone sp pool_ w Hd Hl). split; [done|]. split; [done|].
    simpl. rewrite deleted_app, count_app. unfold count. simpl. split; [done|lia].
  - intros p w0. unfold weak_lock, destroy_pool. simpl. by rewrite lookup_delete_eq.
  - unfold detach, get_deleter. by rewrite Hd.
  - intros w0. by apply (drop_unbound {| ptr := ptr sp; del := pool_deleter None |}).
Qed.

(** C8.  A program makes one pool behind a shared pointer and then calls
    [create] and [get] on it, releases handles, and lets items change state,
    in any order.  After every such run the handles held plus the items
    stored are as many as the items the factory constructed less the items
    destroyed, and no more items were destroyed than constructed. *)
Theorem C8_conservation (e : Env) (ops : list op) :
  Forall (fun o => pool_call 0 o = true) ops ->
  let s := run ops (step OpNewPool (init e)) in
  let constructed := count is_construction (trace (sw s)) in
  let destroyed := count is_destruction (trace (sw s)) in
  length (handles s) + length (items_of 0 (sw s)) = constructed - destroyed
  /\ destroyed <= constructed.
Proof.
  intros Hops s constructed destroyed.
  destruct (conserving_run 0 ops _ (conserving_start e) Hops) as (_ & _ & Hb).
  unfold balanced in Hb. fold s in Hb. fold constructed destroyed in Hb. lia.
Qed.

(** C9.  In every state a program can reach, all stored control blocks have
    an empty pool association: [push] stores the item under a default
    deleter, and a handle [get] returns is bound to the pool again.  Hence
    the destruction of a pool destroys each stored item directly, and so
    does [erase_invalid] with the stored items the hook rejects; neither
    pushes an item anywhere. *)
Theorem C9_stored_items_unbound (e : Env) (ops : list op) (p : pool_id) :
  let w := sw (run ops (init e)) in
  stored_unbound w
  /\ (forall x w0,
        pools (push p x w0).2
        = pools (if v_is_valid x
                 then set_items p (items_of p w0 ++ [{| ptr := x; del := pool_deleter None |}]) w0
                 else w0))
  /\ match get p w with
     | Some (Ok sp, _) => del sp = pool_deleter (Some p)
     | Some _ => True
     | None => False
     end
  /\ destroy_pool p w
     = {| pools := delete p (pools w); next_id := next_id w; env := env w;
          trace := trace w ++ flat_map direct_delete (items_of p w) |}
  /\ erase_invalid p w
     = emit ([EvLock p] ++ map (hook_call p) (items_of p w) ++ [EvUnlock p]
             ++ flat_map direct_delete
                  (List.filter (fun sp => negb (valid_sp sp)) (items_of p w)))
            (set_items p (List.filter valid_sp (items_of p w)) w).
Proof.
  intros w.
  assert (Hw : stored_unbound w)
    by apply stored_unbound_run, stored_unbound_init.
  split; [exact Hw|]. split.
  { intros x w0. unfold push. by destruct (v_is_valid x). }
  split.
  { destruct (get_returns p w) as [[r w'] Hg]. rewrite Hg.
    destruct r as [sp|ex|f]; [|done..]. by apply (get_serves_bound p w w'). }
  split; [by apply destroy_pool_unbound|by apply erase_invalid_unbound].
Qed.

(** C10 (amended).  On a pool object no shared pointer owns, [create] calls
    the factory first and, if that succeeds, throws [bad_weak_ptr] with no
    storage changed.  [get] throws [bad_weak_ptr] as well when it would bind
    or construct an item, but the items it popped before, the accepted one
    included, are destroyed and stay removed: the storage is unchanged only
    if it was empty. *)
Theorem C10_unowned_pool (p : pool_id) (w : world) (po : pool_obj) :
  pools w !! p = Some po -> owned po = false -> Forall unbound (items_ po) ->
  (forall x e',
     v_create (env w) = (inr x, e') ->
     create p w = (Throw bad_weak_ptr, emit [EvCreate p (inr x)] (set_env e' w)))
  /\ (forall pre sp post,
        items_ po = pre ++ sp :: post -> valid_sp sp = true ->
        Forall (fun y => valid_sp y = false) post ->
        exists w',
          get p w = Some (Throw bad_weak_ptr, w')
          /\ items_of p w' = pre
          /\ deleted (trace w') = deleted (trace w) ++ map ptr (rev post) ++ [ptr sp])
  /\ (forall x e',
        Forall (fun y => valid_sp y = false) (items_ po) ->
        v_create (env w) = (inr x, e') ->
        exists w',
          get p w = Some (Throw bad_weak_ptr, w')
          /\ items_of p w' = []
          /\ deleted (trace w') = deleted (trace w) ++ map ptr (rev (items_ po))
          /\ (items_ po = [] -> pools w' = pools w)).
Proof.
  intros Hp Ho Hu. split; [|split].
  - intros x e' Hc. by rewrite (create_spec p w po (inr x) e' Hp Hc), Ho.
  - intros pre sp post Hl Hsp Hpost.
    split_unbound Hu Hl Hupre Husp Hupost.
    rewrite (get_unowned_found p w po pre post sp Hp Ho Hl Husp Hupost Hsp Hpost).
    eexists. split; [reflexivity|]. split.
    { change (items_of p (set_items p pre w) = pre). by apply (items_of_set_items p pre w po). }
    destruct (discard_events_read p (rev post)) as (Hd1 & _).
    simpl. by rewrite !deleted_app, Hd1.
  - intros x e' Hv Hc. rewrite (get_exhausted p w po Hp Hu Hv).
    set (evs := flat_map (discard_events p) (rev (items_ po)) ++ [EvLock p; EvUnlock p]).
    set (w1 := emit evs (set_items p [] w)).
    assert (Hp1 : pools w1 !! p = Some {| owned := owned po; items_ := [] |})
      by (by apply lookup_set_items).
    rewrite (create_spec p w1 _ (inr x) e' Hp1 Hc). simpl. rewrite Ho.
    eexists. split; [reflexivity|]. split.
    { change (items_of p (set_items p [] w) = []). by apply (items_of_set_items p [] w po). }
    destruct (discard_events_read p (rev (items_ po))) as (Hd1 & _).
    split.
    + unfold w1, evs. simpl. rewrite !deleted_app, Hd1. simpl. by rewrite !app_nil_r.
    + intros Hl. simpl. apply alter_id. intros po' Hpo'.
      rewrite Hp in Hpo'. injection Hpo' as <-. rewrite <- Hl. by destruct po.
Qed.

(** ** The lock discipline of the traces *)

Lemma lock_run_app (held : option pool_id) (a b : list event) :
  lock_run held (a ++ b)
  = match lock_run held a with
    | Some held' => lock_run held' b
    | None => None
    end.
Proof.
  revert held. induction a as [|e a IH]; intros held; [done|]. simpl.
  destruct (lock_step held e); [apply IH|done].
Qed.

Lemma disciplined_app (a b : list event) :
  disciplined a -> disciplined b -> disciplined (a ++ b).
Proof. unfold disciplined. intros Ha Hb. by rewrite lock_run_app, Ha. Qed.

Lemma disciplined_discards (p : pool_id) (l : list shared_ptr) :
  disciplined (flat_map (discard_events p) l).
Proof.
  induction l as [|sp l IH]; [done|]. cbn [flat_map].
  apply disciplined_app; [|done]. unfold disciplined. simpl.
  by rewrite !Nat.eqb_refl.
Qed.



(** A release, with the discipline of what it adds to the trace. *)
Lemma drop_shape (sp : shared_ptr) (w : world) :
  (exists evs, drop sp w = emit evs w /\ disciplined evs /\
               count is_destruction evs = 1 /\ count is_construction evs = 0)
  \/ (exists evs p po,
        pools w !! p = Some po /\ owned po = true /\
        drop sp w = emit evs (set_items p (items_ po ++ [{| ptr := ptr sp; del := pool_deleter None |}]) w) /\
        disciplined evs /\
        count is_destruction evs = 0 /\ count is_construction evs = 0).
Proof.
  destruct (del sp) as [pool_|] eqn:Hd.
  - destruct (weak_lock pool_ w) as [p|] eqn:Hl.
    + destruct (v_is_valid (ptr sp)) eqn:Hv.
      * right. destruct (weak_lock_Some _ _ _ Hl) as (_ & po & Hp & Ho).
        eexists _, p, po. split; [done|]. split; [done|].
        rewrite (drop_live_valid sp pool_ p w Hd Hl Hv), (items_of_lookup p w po Hp).
        split; [done|]. split; [|done].
        unfold disciplined. simpl. by rewrite !Nat.eqb_refl.
      * left. rewrite (drop_live_invalid sp pool_ p w Hd Hl Hv). by eexists.
    + left. rewrite (drop_pool_gone sp pool_ w Hd Hl). by eexists.
  - left. unfold drop. rewrite Hd. by eexists.
Qed.

Lemma create_shape (p : pool_id) (w : world) :
  pools (create p w).2 = pools w /\ next_id (create p w).2 = next_id w
  /\ exists evs, trace (create p w).2 = trace w ++ evs /\ disciplined evs.
Proof.
  split; [apply create_pools|]. unfold create.
  destruct (pools w !! p) as [po|].
  - destruct (v_create (env w)) as [[e|x] e'].
    + split; [done|]. by exists [EvCreate p (inl e)].
    + destruct (shared_from_this _ _); (split; [done|]); by exists [EvCreate p (inr x)].
  - split; [done|]. exists []. by rewrite app_nil_r.
Qed.

(** What a call of [get] does to the world, in one statement: it keeps a
    front part of the storage, adds a disciplined piece of trace, and, on a
    pool that is owned, keeps the books. *)
Lemma get_shape (p : pool_id) (w w' : world) (r : outcome E shared_ptr) :
  stored_unbound w -> get p w = Some (r, w') ->
  exists pre post evs,
    items_of p w = pre ++ post /\
    pools w' = pools (set_items p pre w) /\
    next_id w' = next_id w /\
    trace w' = trace w ++ evs /\ disciplined evs /\
    ((forall po, pools w !! p = Some po -> owned po = true) ->
     match r with Ok _ => 1 | _ => 0 end + length pre + count is_destruction evs
     = length (pre ++ post) + count is_construction evs).
Proof.
  intros Hw Hg. destruct (pools w !! p) as [po|] eqn:Hp.
  - pose proof (Hw p po Hp) as Hu. rewrite (items_of_lookup p w po Hp).
    destruct (split_last_valid (items_ po)) as [Hv|(pre & sp & post & Hl & Hsp & Hpost)].
    + rewrite (get_exhausted p w po Hp Hu Hv) in Hg.
      set (evs := flat_map (discard_events p) (rev (items_ po)) ++ [EvLock p; EvUnlock p]) in Hg.
      set (w1 := emit evs (set_items p [] w)) in Hg.
      assert (Hp1 : pools w1 !! p = Some {| owned := owned po; items_ := [] |})
        by (by apply lookup_set_items).
      destruct (v_create (env w1)) as [r0 e'] eqn:Hc.
      rewrite (create_spec p w1 _ r0 e' Hp1 Hc) in Hg. injection Hg as <- <-.
      destruct (discard_events_read p (rev (items_ po))) as (Hd1 & _ & Hd3 & _).
      assert (Hde : count is_destruction evs = length (items_ po)).
      { unfold evs. rewrite count_app, count_destruction_deleted, Hd1.
        rewrite length_map, length_rev. unfold count. simpl. lia. }
      assert (Hco : count is_construction evs = 0).
      { unfold evs. rewrite count_app, Hd3. done. }
      assert (Hdi : disciplined evs).
      { unfold evs. apply disciplined_app; [apply disciplined_discards|].
        unfold disciplined. simpl. by rewrite Nat.eqb_refl. }
      exists [], (items_ po), (evs ++ [EvCreate p r0]).
      split; [done|]. split; [done|]. split; [done|]. split.
      { simpl. by rewrite app_assoc. }
      split; [by apply disciplined_app|].
      intros Ho. rewrite (Ho po eq_refl). rewrite !count_app, Hde, Hco.
      destruct r0; unfold count; simpl; lia.
    + split_unbound Hu Hl Hupre Husp Hupost.
      destruct (discard_events_read p (rev post)) as (Hd1 & _ & Hd3 & _).
      destruct (owned po) eqn:Ho.
      * rewrite (get_found p w po pre post sp Hp Ho Hl) in Hg;
          [|by unfold get_deleter; rewrite Husp|done..].
        injection Hg as <- <-.
        eexists pre, (sp :: post), _.
        split; [done|]. split; [done|]. split; [done|]. split; [reflexivity|]. split.
        { apply disciplined_app; [apply disciplined_discards|].
          unfold disciplined. simpl. by rewrite !Nat.eqb_refl. }
        intros _. rewrite !count_app, count_destruction_deleted, Hd1, Hd3.
        rewrite !length_app, length_map, length_rev. unfold count. simpl. lia.
      * rewrite (get_unowned_found p w po pre post sp Hp Ho Hl) in Hg; [|done..].
        injection Hg as <- <-.
        eexists pre, (sp :: post), _.
        split; [done|]. split; [done|]. split; [done|]. split; [reflexivity|]. split.
        { apply disciplined_app; [apply disciplined_discards|].
          unfold disciplined. simpl. by rewrite !Nat.eqb_refl. }
        intros Hall. rewrite (Hall po eq_refl) in Ho. done.
  - unfold get in Hg. rewrite Hp in Hg. injection Hg as <- <-.
    exists [], [], []. unfold items_of. rewrite Hp.
    split; [done|]. split.
    { unfold set_items. simpl. symmetry. by apply alter_id'. }
    split; [done|]. split; [by rewrite app_nil_r|]. split; [done|]. done.
Qed.

Lemma sw_returned (r : outcome E shared_ptr * world) (s : sys) :
  sw (returned r s) = r.2.
Proof. by destruct r as [[sp|e|f] w]. Qed.



(** ** Identities of pools *)

Lemma set_items_keeps_gone (p q : pool_id) (l : list shared_ptr) (w : world) :
  pools w !! q = None -> pools (set_items p l w) !! q = None.
Proof. intros Hq. unfold set_items. simpl. by apply lookup_alter_None. Qed.

Lemma step_next_id (o : op) (s : sys) :
  stored_unbound (sw s) ->
  next_id (sw (step o s))
  = match o with
    | OpNewPool => S (next_id (sw s))
    | _ => next_id (sw s)
    end.
Proof.
  intros Hs. destruct o as [|p|p|p|p|i|i p|i|p|x|i x|p i x]; cbn [step]; try done.
  - cbn [sw]. by rewrite (destroy_pool_unbound p (sw s) Hs).
  - rewrite sw_returned. by destruct (create_shape p (sw s)) as (_ & Hn & _).
  - destruct (get_returns p (sw s)) as [[r w'] Hg]. rewrite Hg, sw_returned.
    by destruct (get_shape p (sw s) w' r Hs Hg) as (pre & post & evs & _ & _ & Hn & _).
  - destruct (handles s !! i) as [sp|]; [|done]. cbn [sw].
    by destruct (drop_shape sp (sw s)) as [(evs & -> & _)|(evs & q & po & _ & _ & -> & _)].
  - destruct (handles s !! i); [|done].
    destruct (weak_lock (Some p) (sw s)); [|done]. by destruct (attach _ _).
  - destruct (handles s !! i); [|done]. by destruct (detach _).
  - cbn [sw]. by rewrite (erase_invalid_unbound p (sw s) Hs).
Qed.

Lemma step_keeps_gone (o : op) (s : sys) (q : pool_id) :
  stored_unbound (sw s) -> pools (sw s) !! q = None ->
  (o = OpNewPool -> q <> next_id (sw s)) ->
  pools (sw (step o s)) !! q = None.
Proof.
  intros Hs Hq Hnew.
  destruct o as [|p|p|p|p|i|i p|i|p|x|i x|p i x]; cbn [step]; try done.
  - simpl. rewrite lookup_insert_ne; [done|]. intros Heq. by apply Hnew.
  - cbn [sw]. rewrite (destroy_pool_unbound p (sw s) Hs). simpl.
    rewrite lookup_delete. by case_decide.
  - simpl. by apply lookup_alter_None.
  - rewrite sw_returned. by rewrite create_pools.
  - destruct (get_returns p (sw s)) as [[r w'] Hg]. rewrite Hg, sw_returned.
    destruct (get_shape p (sw s) w' r Hs Hg) as (pre & post & evs & _ & Hp & _).
    simpl. rewrite Hp. by apply set_items_keeps_gone.
  - destruct (handles s !! i) as [sp|]; [|done]. cbn [sw].
    destruct (drop_shape sp (sw s)) as [(evs & -> & _)|(evs & p & po & _ & _ & -> & _)];
      [done|]. by apply (set_items_keeps_gone p q).
  - destruct (handles s !! i); [|done].
    destruct (weak_lock (Some p) (sw s)); [|done]. by destruct (attach _ _).
  - destruct (handles s !! i); [|done]. by destruct (detach _).
  - cbn [sw]. destruct (erase_invalid_spec p (sw s)) as (evs & -> & _).
    by apply (set_items_keeps_gone p q).
  - by apply set_items_keeps_gone.
Qed.

Lemma fresh_ok_step (o : op) (s : sys) :
  stored_unbound (sw s) -> fresh_ok (sw s) -> fresh_ok (sw (step o s)).
Proof.
  intros Hs Hf q Hq. rewrite (step_next_id o s Hs) in Hq.
  apply step_keeps_gone; [done| |].
  - apply Hf. destruct o; lia.
  - intros ->. lia.
Qed.

Lemma dead_step (o : op) (s : sys) (p : pool_id) :
  stored_unbound (sw s) -> dead p (sw s) -> dead p (sw (step o s)).
Proof.
  intros Hs [Hlt Hp]. split.
  - rewrite (step_next_id o s Hs). destruct o; lia.
  - apply step_keeps_gone; [done..|]. intros _. lia.
Qed.

Lemma dead_run (ops : list op) (p : pool_id) :
  forall s : sys, stored_unbound (sw s) -> dead p (sw s) -> dead p (sw (run ops s)).
Proof.
  induction ops as [|o ops IH]; intros s Hs Hd; [done|].
  apply (IH (step o s)); [by apply stored_unbound_step|by apply dead_step].
Qed.

Lemma run_app (a b : list op) (s : sys) : run (a ++ b) s = run b (run a s).
Proof. unfold run. apply fold_left_app. Qed.

(** ** Handles a pool made *)

Lemma create_serves_bound (p : pool_id) (w w' : world) (sp : shared_ptr) :
  create p w = (Ok sp, w') -> del sp = pool_deleter (Some p).
Proof.
  unfold create. destruct (pools w !! p) as [po|] eqn:Hp; [|done].
  destruct (v_create (env w)) as [[e|x] e']; [done|].
  unfold shared_from_this. simpl. rewrite Hp.
  destruct (owned po); [|done]. by intros [= <- _].
Qed.

Lemma pool_made_step (o : op) (s : sys) :
  stored_unbound (sw s) -> pool_made_call o = true ->
  Forall pool_made (handles s) -> Forall pool_made (handles (step o s)).
Proof.
  intros Hs Ho Hh.
  destruct o as [|p|p|p|p|i|i p|i|p|x|i x|p i x]; cbn [step]; try done.
  - destruct (create p (sw s)) as [[sp|e|f] w'] eqn:Hc; simpl; [|done..].
    apply Forall_app. split; [done|]. constructor; [|done].
    unfold pool_made, get_deleter. by rewrite (create_serves_bound p (sw s) w' sp Hc).
  - destruct (get p (sw s)) as [[[sp|e|f] w']|] eqn:Hg; simpl; [|done..].
    apply Forall_app. split; [done|]. constructor; [|done].
    unfold pool_made, get_deleter. by rewrite (get_serves_bound p (sw s) w' sp Hs Hg).
  - destruct (handles s !! i) as [sp|]; [|done]. simpl. by apply Forall_delete.
  - destruct (handles s !! i) as [sp|]; [|done].
    destruct (weak_lock (Some p) (sw s)) as [q|]; [|done].
    unfold attach. destruct (get_deleter sp); [|done]. simpl.
    by apply Forall_insert.
  - destruct (handles s !! i) as [sp|]; [|done].
    unfold detach. destruct (get_deleter sp); [|done]. simpl.
    by apply Forall_insert.
  - simpl. apply Forall_alter; [done|]. intros sp _ Hsp. exact Hsp.
Qed.

Lemma pool_made_run (ops : list op) :
  forall s : sys,
    stored_unbound (sw s) -> Forall (fun o => pool_made_call o = true) ops ->
    Forall pool_made (handles s) -> Forall pool_made (handles (run ops s)).
Proof.
  induction ops as [|o ops IH]; intros s Hs Hops Hh; [done|].
  apply Forall_cons in Hops as [Ho Hops].
  apply (IH (step o s)); [by apply stored_unbound_step|done|by apply pool_made_step].
Qed.

(** ** Books over all pools *)

Lemma stored_total_insert (m : gmap pool_id pool_obj) (p : pool_id) (po : pool_obj) :
  m !! p = None -> stored_total (<[p := po]> m) = length (items_ po) + stored_total m.
Proof.
  intros Hp. unfold stored_total. rewrite map_fold_insert_L; [done| |done].
  intros. lia.
Qed.

Lemma stored_total_delete (m : gmap pool_id pool_obj) (p : pool_id) (po : pool_obj) :
  m !! p = Some po -> stored_total m = length (items_ po) + stored_total (delete p m).
Proof.
  intros Hp. unfold stored_total.
  apply (map_fold_delete_L (fun _ po n => length (items_ po) + n)); [|done].
  intros. lia.
Qed.

Lemma stored_total_set_items (p : pool_id) (l : list shared_ptr) (w : world) :
  (pools w !! p = None -> l = []) ->
  stored_total (pools (set_items p l w)) + length (items_of p w)
  = stored_total (pools w) + length l.
Proof.
  intros Hl. unfold items_of, set_items. simpl.
  destruct (pools w !! p) as [po|] eqn:Hp.
  - rewrite (stored_total_delete (alter _ p (pools w)) p {| owned := owned po; items_ := l |})
      by (by rewrite lookup_alter_eq, Hp).
    rewrite delete_alter_eq, (stored_total_delete (pools w) p po Hp). simpl. lia.
  - rewrite (Hl eq_refl), alter_id' by done. done.
Qed.

Lemma filter_length_split {A : Type} (f : A -> bool) (l : list A) :
  length (List.filter f l) + length (List.filter (fun x => negb (f x)) l) = length l.
Proof.
  induction l as [|x l IH]; [done|]. simpl. destruct (f x); simpl; lia.
Qed.

Lemma direct_deletes_read (l : list shared_ptr) :
  count is_destruction (flat_map direct_delete l) = length l
  /\ count is_construction (flat_map direct_delete l) = 0.
Proof.
  induction l as [|sp l [IH1 IH2]]; [done|]. cbn [flat_map].
  rewrite !count_app, IH1, IH2. done.
Qed.

Lemma all_owned_pools (w w' : world) :
  pools w' = pools w -> all_owned w -> all_owned w'.
Proof. unfold all_owned. intros ->. done. Qed.

Lemma all_owned_set_items (p : pool_id) (l : list shared_ptr) (w : world) :
  all_owned w -> all_owned (set_items p l w).
Proof.
  intros Hw q po. unfold set_items. simpl. rewrite lookup_alter.
  case_decide as Hpq; [|apply Hw]. subst q.
  destruct (pools w !! p) as [po'|] eqn:Hp; [|done]. simpl.
  intros [= <-]. simpl. by apply (Hw p).
Qed.

Lemma all_owned_step (o : op) (s : sys) :
  stored_unbound (sw s) -> regular_call o = true ->
  all_owned (sw s) -> all_owned (sw (step o s)).
Proof.
  intros Hs Ho Ha.
  destruct o as [|p|p|p|p|i|i p|i|p|x|i x|p i x]; cbn [step]; try done.
  - intros q po. simpl. rewrite lookup_insert. case_decide; [|apply Ha].
    by intros [= <-].
  - cbn [sw]. rewrite (destroy_pool_unbound p (sw s) Hs).
    intros q po. simpl. rewrite lookup_delete. case_decide; [done|]. apply Ha.
  - rewrite sw_returned. apply (all_owned_pools (sw s)); [apply create_pools|done].
  - destruct (get_returns p (sw s)) as [[r w'] Hg]. rewrite Hg, sw_returned.
    destruct (get_shape p (sw s) w' r Hs Hg) as (pre & post & evs & _ & Hp & _).
    apply (all_owned_pools (set_items p pre (sw s))); [done|].
    by apply all_owned_set_items.
  - destruct (handles s !! i) as [sp|]; [|done]. cbn [sw].
    destruct (drop_shape sp (sw s)) as [(evs & -> & _)|(evs & q & po & _ & _ & -> & _)];
      [done|]. by apply (all_owned_set_items q).
  - destruct (handles s !! i); [|done].
    destruct (weak_lock (Some p) (sw s)); [|done]. by destruct (attach _ _).
  - destruct (handles s !! i); [|done]. by destruct (detach _).
  - cbn [sw]. destruct (erase_invalid_spec p (sw s)) as (evs & -> & _).
    by apply (all_owned_set_items p).
  - by apply all_owned_set_items.
Qed.

Lemma balanced_all_update (s : sys) (hs' : list shared_ptr) (w' : world) (evs : list event) :
  balanced_all s -> trace w' = trace (sw s) ++ evs ->
  length hs' + stored_total (pools w') + count is_destruction evs
  = length (handles s) + stored_total (pools (sw s)) + count is_construction evs ->
  balanced_all {| sw := w'; handles := hs' |}.
Proof.
  unfold balanced_all. intros Hb Htr Heq. simpl. rewrite Htr, !count_app. lia.
Qed.

Lemma balanced_all_same (s : sys) (hs' : list shared_ptr) (w' : world) :
  balanced_all s -> trace w' = trace (sw s) -> pools w' = pools (sw s) ->
  length hs' = length (handles s) ->
  balanced_all {| sw := w'; handles := hs' |}.
Proof. unfold balanced_all. simpl. by intros Hb -> -> ->. Qed.

Lemma balanced_all_step (o : op) (s : sys) :
  sound s -> regular_call o = true -> balanced_all (step o s).
Proof.
  intros (Hf & Ha & Hs & Hb) Ho.
  destruct o as [|p|p|p|p|i|i p|i|p|x|i x|p i x]; cbn [step]; try done.
  - (* a new pool *)
    apply (balanced_all_update s _ _ [] Hb); [simpl; by rewrite app_nil_r|].
    simpl. rewrite stored_total_insert by (apply Hf; lia). simpl. unfold count. simpl. lia.
  - (* the end of a pool *)
    rewrite (destroy_pool_unbound p (sw s) Hs).
    eapply balanced_all_update; [exact Hb|reflexivity|]. simpl.
    destruct (direct_deletes_read (items_of p (sw s))) as [-> ->].
    unfold items_of. destruct (pools (sw s) !! p) as [po|] eqn:Hp.
    + rewrite (stored_total_delete (pools (sw s)) p po Hp). lia.
    + rewrite delete_id by done. simpl. lia.
  - (* create *)
    destruct (pools (sw s) !! p) as [po|] eqn:Hp.
    + destruct (v_create (env (sw s))) as [r e'] eqn:Hc.
      rewrite (create_spec p (sw s) po r e' Hp Hc), (Ha p po Hp).
      destruct r as [e|x]; simpl.
      * apply (balanced_all_update s _ _ [EvCreate p (inl e)] Hb); [done|].
        simpl. unfold count. simpl. lia.
      * apply (balanced_all_update s _ _ [EvCreate p (inr x)] Hb); [done|].
        simpl. rewrite length_app. unfold count. simpl. lia.
    + unfold create. rewrite Hp. simpl. by destruct s.
  - (* get *)
    destruct (get_returns p (sw s)) as [[r w'] Hg]. rewrite Hg.
    destruct (get_shape p (sw s) w' r Hs Hg)
      as (pre & post & evs & Hl & Hp & _ & Ht & _ & Hacc).
    specialize (Hacc (Ha p)).
    assert (Hpre : pools (sw s) !! p = None -> pre = []).
    { intros Hnone. unfold items_of in Hl. rewrite Hnone in Hl.
      symmetry in Hl. by apply app_eq_nil in Hl as [-> _]. }
    pose proof (stored_total_set_items p pre (sw s) Hpre) as Htot.
    rewrite Hl in Htot. rewrite <- Hp in Htot.
    destruct r as [sp|ex|f]; simpl;
      (apply (balanced_all_update s _ _ evs Hb); [done|]);
      rewrite ?length_app; simpl; lia.
  - (* release *)
    destruct (handles s !! i) as [sp|] eqn:Hi; [|by destruct s].
    pose proof (lookup_lt_Some _ _ _ Hi) as Hlt.
    assert (Hlen : length (delete i (handles s)) = length (handles s) - 1)
      by (apply length_delete; eauto).
    destruct (drop_shape sp (sw s))
      as [(evs & -> & _ & Hd & Hc)|(evs & q & po & Hq & _ & -> & _ & Hd & Hc)].
    + apply (balanced_all_update s _ _ evs Hb); [done|]. simpl. lia.
    + apply (balanced_all_update s _ _ evs Hb); [done|].
      pose proof (stored_total_set_items q
                    (items_ po ++ [{| ptr := ptr sp; del := pool_deleter None |}])
                    (sw s)) as Htot.
      rewrite (items_of_lookup q (sw s) po Hq), length_app in Htot. cbn [length] in Htot.
      change (pools (emit evs ?w1)) with (pools w1).
      specialize (Htot ltac:(by rewrite Hq)). lia.
  - (* attach *)
    destruct (handles s !! i) as [sp|]; [|by destruct s].
    destruct (weak_lock (Some p) (sw s)); [|by destruct s].
    destruct (attach _ _); [|by destruct s..].
    apply (balanced_all_same s); [done..|]. by rewrite length_insert.
  - (* detach *)
    destruct (handles s !! i) as [sp|]; [|by destruct s].
    destruct (detach _); [|by destruct s..].
    apply (balanced_all_same s); [done..|]. by rewrite length_insert.
  - (* erase_invalid *)
    destruct (erase_invalid_spec p (sw s)) as (evs & -> & Hd & Hc & _).
    apply (balanced_all_update s _ _ evs Hb); [done|].
    change (pools (emit evs ?w1)) with (pools w1).
    pose proof (stored_total_set_items p (List.filter valid_sp (items_of p (sw s))) (sw s)) as Htot.
    assert (Hnone : pools (sw s) !! p = None -> List.filter valid_sp (items_of p (sw s)) = []).
    { intros Hnone. unfold items_of. by rewrite Hnone. }
    specialize (Htot Hnone).
    pose proof (filter_length_split valid_sp (items_of p (sw s))) as Hsplit.
    rewrite count_destruction_deleted, Hd, length_map, Hc. lia.
  - (* the holder changes an item *)
    apply (balanced_all_same s); [done..|]. by rewrite length_alter.
  - (* a stored item changes *)
    apply (balanced_all_update s _ _ [] Hb); [simpl; by rewrite app_nil_r|].
    pose proof (stored_total_set_items p (alter (set_ptr x) i (items_of p (sw s))) (sw s)) as Htot.
    assert (Hnone : pools (sw s) !! p = None -> alter (set_ptr x) i (items_of p (sw s)) = []).
    { intros Hnone. unfold items_of. by rewrite Hnone. }
    specialize (Htot Hnone). rewrite length_alter in Htot.
    unfold set_items in Htot. unfold count. simpl in *. lia.
Qed.

Lemma sound_step (o : op) (s : sys) :
  sound s -> regular_call o = true -> sound (step o s).
Proof.
  intros Hsound Ho. pose proof Hsound as (Hf & Ha & Hs & Hb).
  split; [by apply fresh_ok_step|]. split; [by apply all_owned_step|].
  split; [by apply stored_unbound_step|by apply balanced_all_step].
Qed.

Lemma sound_run (ops : list op) :
  forall s : sys,
    sound s -> Forall (fun o => regular_call o = true) ops -> sound (run ops s).
Proof.
  induction ops as [|o ops IH]; intros s Hs Hops; [done|].
  apply Forall_cons in Hops as [Ho Hops].
  apply (IH (step o s)); [by apply sound_step|done].
Qed.

Lemma sound_init (e : Env) : sound (init e).
Proof.
  split; [|split; [|split]].
  - intros q _. simpl. by rewrite lookup_empty.
  - intros p po. simpl. by rewrite lookup_empty.
  - apply stored_unbound_init.
  - done.
Qed.

(** ** Further properties of the code *)

Lemma filter_neg_all_invalid (l : list shared_ptr) :
  Forall (fun y => valid_sp y = false) l ->
  List.filter (fun sp => negb (valid_sp sp)) l = l.
Proof.
  induction 1 as [|x l Hx Hl IH]; [done|]. simpl. by rewrite Hx, IH.
Qed.


(** X2.  In a program that makes no handle of its own, every handle held
    carries the deleter of the pool class, so [attach] and [detach] succeed
    on it and the assertion in them does not fail. *)
Theorem X2_pool_handles_attachable (e : Env) (ops : list op) (i : nat)
    (sp : shared_ptr) (p : pool_id) :
  Forall (fun o => pool_made_call o = true) ops ->
  handles (run ops (init e)) !! i = Some sp ->
  attach sp p = (Ok {| ptr := ptr sp; del := pool_deleter (Some p) |} : outcome E shared_ptr)
  /\ detach sp = (Ok {| ptr := ptr sp; del := pool_deleter None |} : outcome E shared_ptr).
Proof.
  intros Hops Hi.
  pose proof (pool_made_run ops (init e) (stored_unbound_init e) Hops ltac:(constructor)) as Hh.
  pose proof (Forall_lookup_1 _ _ _ _ Hh Hi) as Hsp.
  unfold pool_made in Hsp. unfold attach, detach.
  by destruct (get_deleter sp).
Qed.

(** X3.  Conservation over any number of pools.  In a program whose items
    all come from a factory and whose pools stay behind their shared
    pointers, with pools made and destroyed, [create], [get], releases,
    [attach], [detach], sweeps and items that change state in any order, the
    handles held plus the items stored in all pools are as many as the items
    constructed less the items destroyed. *)
Theorem X3_conservation_all_pools (e : Env) (ops : list op) :
  Forall (fun o => regular_call o = true) ops ->
  let s := run ops (init e) in
  let constructed := count is_construction (trace (sw s)) in
  let destroyed := count is_destruction (trace (sw s)) in
  length (handles s) + stored_total (pools (sw s)) = constructed - destroyed
  /\ destroyed <= constructed.
Proof.
  intros Hops s constructed destroyed.
  destruct (sound_run ops (init e) (sound_init e) Hops) as (_ & _ & _ & Hb).
  unfold balanced_all in Hb. fold s in Hb. fold constructed destroyed in Hb. lia.
Qed.

(** X4.  Round trip.  On a live pool, an item the factory makes and the
    hook accepts, handed out by [create] and released, is what the next
    [get] returns, in a handle equal to the first; the storage is then as
    it was before [create], the factory was called once and nothing was
    destroyed. *)
Theorem X4_create_release_get (p : pool_id) (w : world) (po : pool_obj) (x : T) (e' : Env) :
  pools w !! p = Some po -> owned po = true -> Forall unbound (items_ po) ->
  v_create (env w) = (inr x, e') -> v_is_valid x = true ->
  let h := {| ptr := x; del := pool_deleter (Some p) |} in
  exists w1 w3,
    create p w = (Ok h, w1)
    /\ items_of p (drop h w1) = items_ po ++ [{| ptr := x; del := pool_deleter None |}]
    /\ get p (drop h w1) = Some (Ok h, w3)
    /\ items_of p w3 = items_ po
    /\ count is_factory_call (trace w3) = S (count is_factory_call (trace w))
    /\ deleted (trace w3) = deleted (trace w).
Proof.
  intros Hp Ho Hu Hc Hv h.
  set (ux := {| ptr := x; del := pool_deleter None |}).
  rewrite (create_spec p w po (inr x) e' Hp Hc), Ho.
  set (w1 := emit [EvCreate p (inr x)] (set_env e' w)).
  assert (Hp1 : pools w1 !! p = Some po) by exact Hp.
  pose proof (drop_live_valid h (Some p) p w1 eq_refl (weak_lock_live p w1 po Hp1 Ho) Hv) as Hd.
  rewrite (items_of_lookup p w1 po Hp1) in Hd. simpl in Hd. fold ux in Hd.
  assert (Hp2 : pools (drop h w1) !! p = Some {| owned := owned po; items_ := items_ po ++ [ux] |}).
  { rewrite Hd. by apply (lookup_set_items p _ w1 po Hp1). }
  pose proof (get_found p (drop h w1) _ (items_ po) [] ux Hp2 Ho eq_refl
                ltac:(done) ltac:(constructor) Hv ltac:(constructor)) as Hg.
  eexists _, _. split; [reflexivity|]. split.
  { by rewrite (items_of_lookup p _ _ Hp2). }
  split; [exact Hg|]. split.
  { change (items_of p (set_items p (items_ po) (drop h w1)) = items_ po).
    by apply (items_of_set_items p _ _ _ Hp2). }
  simpl. rewrite Hd. simpl.
  rewrite !count_app, !deleted_app. unfold count. simpl.
  rewrite !app_nil_r. split; [lia|done].
Qed.

(** X5.  A sweep before [get] does not change what [get] returns: with or
    without [erase_invalid] first, [get] gives the same result, and after
    [erase_invalid; get] the storage is what it is after
    [get; erase_invalid], with the same items destroyed, only in another
    order. *)
Theorem X5_sweep_then_get (p : pool_id) (w : world) (po : pool_obj) :
  pools w !! p = Some po -> owned po = true -> Forall unbound (items_ po) ->
  exists r w1 w2,
    get p (erase_invalid p w) = Some (r, w1)
    /\ get p w = Some (r, w2)
    /\ items_of p w1 = items_of p (erase_invalid p w2)
    /\ Permutation (deleted (trace w1)) (deleted (trace (erase_invalid p w2))).
Proof.
  intros Hp Ho Hu.
  destruct (erase_invalid_spec p w) as (evs & He & Hde & _).
  rewrite (items_of_lookup p w po Hp) in He, Hde.
  set (we := erase_invalid p w) in *.
  assert (Hpe : pools we !! p
                = Some {| owned := owned po; items_ := List.filter valid_sp (items_ po) |}).
  { rewrite He. by apply (lookup_set_items p _ w po Hp). }
  assert (Htre : deleted (trace we)
                 = deleted (trace w)
                   ++ map ptr (List.filter (fun sp => negb (valid_sp sp)) (items_ po))).
  { rewrite He. simpl. by rewrite deleted_app, Hde. }
  destruct (split_last_valid (items_ po)) as [Hv|(pre & sp & post & Hl & Hsp & Hpost)].
  - (* nothing valid is stored: both calls fall back to create *)
    assert (Hfe : List.filter valid_sp (items_ po) = []) by (by apply filter_all_invalid).
    rewrite Hfe in Hpe.
    rewrite (get_exhausted p we _ Hpe ltac:(constructor) ltac:(constructor)).
    rewrite (get_exhausted p w po Hp Hu Hv). simpl.
    set (w1 := emit _ (set_items p [] we)).
    set (w2 := emit _ (set_items p [] w)).
    assert (Hp1 : pools w1 !! p = Some {| owned := owned po; items_ := [] |})
      by (by apply (lookup_set_items p [] we _ Hpe)).
    assert (Hp2 : pools w2 !! p = Some {| owned := owned po; items_ := [] |})
      by (by apply lookup_set_items).
    assert (Henv : env w1 = env w2) by (unfold w1, w2; simpl; by rewrite He).
    destruct (v_create (env w2)) as [r0 e'] eqn:Hc.
    rewrite (create_spec p w2 _ r0 e' Hp2 Hc).
    rewrite <- Henv in Hc. rewrite (create_spec p w1 _ r0 e' Hp1 Hc).
    eexists _, _, _. split; [reflexivity|]. split; [reflexivity|].
    destruct (erase_invalid_spec p (emit [EvCreate p r0] (set_env e' w2)))
      as (evs2 & He2 & Hde2 & _).
    assert (Hi2 : items_of p (emit [EvCreate p r0] (set_env e' w2)) = []).
    { change (items_of p (set_items p [] w) = []). by apply (items_of_set_items p [] w po). }
    rewrite Hi2 in He2, Hde2. simpl in He2, Hde2.
    split.
    + rewrite He2.
      change (items_of p (set_items p [] we)
              = items_of p (set_items p [] (set_items p [] w))).
      rewrite set_items_set_items.
      rewrite (items_of_set_items p [] we _ Hpe), (items_of_set_items p [] w po Hp). done.
    + rewrite He2. unfold w1, w2. simpl.
      destruct (discard_events_read p (rev (items_ po))) as (Hd1 & _).
      rewrite !deleted_app, Htre, Hde2, Hd1, (filter_neg_all_invalid _ Hv). simpl.
      rewrite !app_nil_r. apply Permutation_app_head, Permutation_map, Permutation_rev.
  - (* the last valid item is served either way *)
    split_unbound Hu Hl Hupre Husp Hupost.
    assert (Hfe : List.filter valid_sp (items_ po) = List.filter valid_sp pre ++ [sp]).
    { rewrite Hl, List.filter_app. simpl. by rewrite Hsp, (filter_all_invalid _ Hpost). }
    assert (Hne : List.filter (fun y => negb (valid_sp y)) (items_ po)
                  = List.filter (fun y => negb (valid_sp y)) pre ++ post).
    { rewrite Hl, List.filter_app. simpl. by rewrite Hsp, (filter_neg_all_invalid _ Hpost). }
    rewrite Hfe in Hpe.
    rewrite (get_found p we _ (List.filter valid_sp pre) [] sp Hpe Ho eq_refl);
      [|by unfold get_deleter; rewrite Husp|constructor|done|constructor].
    rewrite (get_found p w po pre post sp Hp Ho Hl);
      [|by unfold get_deleter; rewrite Husp|done..].
    eexists _, _, _. split; [reflexivity|]. split; [reflexivity|].
    set (w2 := emit _ (set_items p pre w)).
    destruct (erase_invalid_spec p w2) as (evs2 & He2 & Hde2 & _).
    assert (Hi2 : items_of p w2 = pre).
    { change (items_of p (set_items p pre w) = pre). by apply (items_of_set_items p pre w po). }
    rewrite Hi2 in He2, Hde2.
    split.
    + rewrite He2.
      change (items_of p (set_items p (List.filter valid_sp pre) we)
              = items_of p (set_items p (List.filter valid_sp pre) (set_items p pre w))).
      rewrite set_items_set_items.
      rewrite (items_of_set_items p _ we _ Hpe), (items_of_set_items p _ w po Hp). done.
    + rewrite He2. unfold w2. simpl.
      destruct (discard_events_read p (rev post)) as (Hd1 & _).
      rewrite !deleted_app, Htre, Hde2, Hd1, Hne, map_app. simpl.
      rewrite !app_nil_r, <- !app_assoc. apply Permutation_app_head.
      etransitivity; [apply Permutation_app_comm|].
      apply Permutation_app_tail, Permutation_map, Permutation_rev.
Qed.


(** X7.  A pool that has been destroyed stays gone: the identity of a pool
    is not given out again, so whatever the program does afterwards, the
    association of a handle bound to that pool does not resolve, and the
    release of such a handle destroys its item and stores it nowhere. *)
Theorem X7_destroyed_pool_stays_gone (e : Env) (ops1 ops2 : list op) (p : pool_id) (x : T) :
  p < next_id (sw (run ops1 (init e))) ->
  let w := sw (run (ops1 ++ OpDestroyPool p :: ops2) (init e)) in
  pools w !! p = None
  /\ weak_lock (Some p) w = None
  /\ drop {| ptr := x; del := pool_deleter (Some p) |} w
     = emit [EvResolve (Some p) None; EvDelete x] w.
Proof.
  intros Hlt w.
  assert (Hdead : dead p w).
  { unfold w. rewrite run_app. cbn [run fold_left].
    fold (run ops2 (step (OpDestroyPool p) (run ops1 (init e)))).
    pose proof (stored_unbound_run ops1 (init e) (stored_unbound_init e)) as Hs1.
    apply dead_run; [by apply stored_unbound_step|].
    cbn [step sw]. rewrite (destroy_pool_unbound p _ Hs1). split; [done|].
    simpl. apply lookup_delete_eq. }
  destruct Hdead as [_ Hp].
  assert (Hl : weak_lock (Some p) w = None) by (unfold weak_lock; by rewrite Hp).
  split; [done|]. split; [done|].
  by apply (drop_pool_gone {| ptr := x; del := pool_deleter (Some p) |}).
Qed.

(** X9.  [get] returns in every world: a round of its loop that does not
    return removes one stored item, and the release of the item it rejected
    stores nothing, so the loop ends within one round more than there are
    stored items, also when stored control blocks are bound to a pool. *)
Theorem X9_get_returns (p : pool_id) (w : world) (po : pool_obj) :
  pools w !! p = Some po ->
  exists r w', get_loop (S (length (items_ po))) p w = Some (r, w')
               /\ get p w = Some (r, w').
Proof.
  intros Hp.
  destruct (get_loop_returns p (S (length (items_ po))) w) as [[r w'] Hg].
  { rewrite (items_of_lookup p w po Hp). lia. }
  exists r, w'. split; [done|]. unfold get. by rewrite Hp.
Qed.

(** X10.  A handle [get] returns holds either a stored item that the hook
    accepted in this very call, or, when the hook rejected all stored items,
    the item the factory made; the hook is not asked about a new item. *)
Theorem X10_get_serves_valid_or_new (p : pool_id) (w w' : world) (sp : shared_ptr) :
  stored_unbound w -> get p w = Some (Ok sp, w') ->
  (v_is_valid (ptr sp) = true
   /\ exists pre post,
        items_of p w = pre ++ {| ptr := ptr sp; del := pool_deleter None |} :: post
        /\ Forall (fun y => valid_sp y = false) post
        /\ items_of p w' = pre
        /\ count is_factory_call (trace w') = count is_factory_call (trace w))
  \/ (Forall (fun y => valid_sp y = false) (items_of p w)
      /\ (exists e', v_create (env w) = (inr (ptr sp), e'))
      /\ items_of p w' = []
      /\ count is_hook_call (trace w')
         = count is_hook_call (trace w) + length (items_of p w)).
Proof.
  intros Hw Hg. destruct (pools w !! p) as [po|] eqn:Hp.
  - pose proof (Hw p po Hp) as Hu. rewrite (items_of_lookup p w po Hp).
    destruct (split_last_valid (items_ po)) as [Hv|(pre & x & post & Hl & Hx & Hpost)].
    + right. rewrite (get_exhausted p w po Hp Hu Hv) in Hg.
      set (evs := flat_map (discard_events p) (rev (items_ po)) ++ [EvLock p; EvUnlock p]) in Hg.
      set (w1 := emit evs (set_items p [] w)) in Hg.
      assert (Hp1 : pools w1 !! p = Some {| owned := owned po; items_ := [] |})
        by (by apply lookup_set_items).
      destruct (v_create (env w1)) as [r e'] eqn:Hc.
      rewrite (create_spec p w1 _ r e' Hp1 Hc) in Hg.
      destruct r as [e|y]; [done|]. simpl in Hg. destruct (owned po); [|done].
      injection Hg as <- <-. split; [done|]. split; [by exists e'|]. split.
      { change (items_of p (set_items p [] w) = []). by apply (items_of_set_items p [] w po). }
      simpl. unfold evs. rewrite !count_app.
      assert (Hh : forall l, count is_hook_call (flat_map (discard_events p) l) = length l).
      { induction l as [|z l IH]; [done|]. cbn [flat_map]. rewrite count_app, IH. done. }
      rewrite Hh, length_rev. unfold count. simpl. lia.
    + left. split_unbound Hu Hl Hupre Hux Hupost.
      destruct (owned po) eqn:Ho.
      * rewrite (get_found p w po pre post x Hp Ho Hl) in Hg;
          [|by unfold get_deleter; rewrite Hux|done..].
        injection Hg as <- <-. split; [done|].
        exists pre, post. split.
        { rewrite Hl. simpl. do 2 f_equal. destruct x as [xp xd]. simpl in *.
          unfold unbound in Hux. simpl in Hux. by subst xd. }
        split; [done|]. split.
        { change (items_of p (set_items p pre w) = pre). by apply (items_of_set_items p pre w po). }
        destruct (discard_events_read p (rev post)) as (_ & Hf & _).
        simpl. rewrite !count_app, Hf. unfold count. simpl. lia.
      * by rewrite (get_unowned_found p w po pre post x Hp Ho Hl) in Hg.
  - unfold get in Hg. by rewrite Hp in Hg.
Qed.

End with_hooks.

(** With the hook of the base class nothing is ever swept. *)
Lemma default_hook_keeps_all {T E Env : Type} (p : pool_id) (w : world (T:=T) (E:=E) (Env:=Env)) :
  items_of p (erase_invalid default_is_valid p w) = items_of p w.
Proof.
  destruct (erase_invalid_spec default_is_valid p w) as (evs & -> & _).
  change (items_of p (emit evs ?w1)) with (items_of p w1).
  rewrite items_of_set_items_filter.
  induction (items_of p w) as [|sp l IH]; [done|]. simpl. by rewrite IH.
Qed.

(** X8.  With the validity hook of the base class, which accepts every
    item, a sweep keeps the whole storage and destroys nothing, every
    release into a live pool stores the item, and [get] on a storage that is
    not empty serves the item stored last after one pop, with no item
    destroyed and no call of the factory. *)
Theorem X8_default_hook {T E Env : Type} (v_create : Env -> (E + T) * Env)
    (p : pool_id) (w : world (T:=T) (E:=E) (Env:=Env)) (po : pool_obj) :
  pools w !! p = Some po -> owned po = true -> Forall unbound (items_ po) ->
  (items_of p (erase_invalid default_is_valid p w) = items_ po
   /\ deleted (trace (erase_invalid default_is_valid p w)) = deleted (trace w))
  /\ (forall x,
        items_of p (drop default_is_valid {| ptr := x; del := pool_deleter (Some p) |} w)
        = items_ po ++ [{| ptr := x; del := pool_deleter None |}])
  /\ (forall pre sp,
        items_ po = pre ++ [sp] ->
        exists w',
          get v_create default_is_valid p w
          = Some (Ok {| ptr := ptr sp; del := pool_deleter (Some p) |}, w')
          /\ trace w' = trace w ++ [EvLock p; EvPopBack p (ptr sp); EvUnlock p;
                                    EvIsValid p (ptr sp) true]
          /\ items_of p w' = pre).
Proof.
  intros Hp Ho Hu. split; [|split].
  - destruct (erase_invalid_spec default_is_valid p w) as (evs & He & Hd & _).
    assert (Hall : forall l : list (shared_ptr (T:=T)),
               List.filter (valid_sp default_is_valid) l = l
               /\ List.filter (fun sp => negb (valid_sp default_is_valid sp)) l = []).
    { induction l as [|sp l [IH1 IH2]]; [done|]. split.
      - simpl. f_equal. exact IH1.
      - simpl. exact IH2. }
    destruct (Hall (items_of p w)) as [Hk Hr]. rewrite Hk in He. rewrite Hr in Hd.
    rewrite He. split.
    + change (items_of p (set_items p (items_of p w) w) = items_ po).
      rewrite (items_of_lookup p w po Hp). by apply (items_of_set_items p _ w po).
    + simpl. rewrite deleted_app, Hd. simpl. by rewrite app_nil_r.
  - intros x.
    rewrite (drop_live_valid default_is_valid {| ptr := x; del := pool_deleter (Some p) |}
               (Some p) p w eq_refl (weak_lock_live p w po Hp Ho) eq_refl).
    change (items_of p (emit ?a ?w1)) with (items_of p w1).
    rewrite (items_of_lookup p w po Hp). by apply (items_of_set_items p _ w po).
  - intros pre sp Hl.
    pose proof Hu as Hu'. rewrite Hl in Hu'. apply Forall_app in Hu' as [_ Husp].
    apply Forall_cons in Husp as [Husp _].
    rewrite (get_found v_create default_is_valid p w po pre [] sp Hp Ho Hl);
      [|by unfold get_deleter; rewrite Husp|constructor|done|constructor].
    eexists. split; [reflexivity|]. split; [done|].
    change (items_of p (set_items p pre w) = pre). by apply (items_of_set_items p pre w po).
Qed.

(** ** The claims on the counter pool

    Pool 0 holds counters; [counter_valid] accepts the counters that are
    not negative. *)

Local Open Scope Z_scope.

(** C1, as stated, fails.  A pool makes the counter 1 and is destroyed while
    the handle is out: the release of the handle destroys the counter
    without a call of the validity hook.  And with the pool alive, the
    release of a counter that has turned negative resolves the association
    before it calls the hook, not after. *)
Lemma C1_counterexample :
  trace (sw (run (E:=nat) counter_factory counter_valid
               [OpNewPool; OpCreate 0; OpDestroyPool 0; OpRelease 0] (init 0)))
  = [EvCreate 0 (inr 1); EvResolve (Some 0%nat) None; EvDelete 1]
  /\ count is_hook_call
       (trace (sw (run (E:=nat) counter_factory counter_valid
                     [OpNewPool; OpCreate 0; OpDestroyPool 0; OpRelease 0] (init 0))))
     = 0%nat
  /\ trace (sw (run (E:=nat) counter_factory counter_valid
                  [OpNewPool; OpCreate 0; OpUse 0 (-1); OpRelease 0] (init 0)))
     = [EvCreate 0 (inr 1); EvResolve (Some 0%nat) (Some 0%nat);
        EvIsValid 0 (-1) false; EvDelete (-1)].
Proof. repeat split. Qed.

Lemma C2_witness :
  let po := {| owned := true;
               items_ := [{| ptr := 3; del := pool_deleter None |};
                          {| ptr := -1; del := pool_deleter None |}] |} in
  exists w',
    get counter_factory counter_valid 0 (world_of [po] 0)
    = Some (Ok {| ptr := 3; del := pool_deleter (Some 0%nat) |}, w')
    /\ items_of 0 w' = []
    /\ deleted (trace w') = [-1]
    /\ count is_factory_call (trace w') = 0%nat.
Proof.
  intros po.
  destruct (C2_get_pops_until_valid counter_factory counter_valid 0 (world_of [po] 0) po
              eq_refl eq_refl ltac:(repeat constructor)) as (_ & Hfound & _).
  destruct (Hfound [] {| ptr := 3; del := pool_deleter None |}
              [{| ptr := -1; del := pool_deleter None |}]
              eq_refl eq_refl ltac:(repeat constructor))
    as (w' & Hg & _ & Hi & Hd & _ & Hf).
  exists w'. split; [exact Hg|]. split; [exact Hi|]. split; [exact Hd|exact Hf].
Defined.

Lemma C3_witness :
  let po := {| owned := true; items_ := [] |} in
  let w := world_of (E:=nat) [po] 0 in
  let w2 := drop counter_valid {| ptr := 2; del := pool_deleter (Some 0%nat) |}
              (drop counter_valid {| ptr := 1; del := pool_deleter (Some 0%nat) |} w) in
  exists w3 w4,
    get counter_factory counter_valid 0 w2
    = Some (Ok {| ptr := 2; del := pool_deleter (Some 0%nat) |}, w3)
    /\ get counter_factory counter_valid 0 w3
       = Some (Ok {| ptr := 1; del := pool_deleter (Some 0%nat) |}, w4)
    /\ items_of 0 w4 = []
    /\ count is_factory_call (trace w4) = 0%nat.
Proof.
  intros po w w2.
  destruct (C3_lifo_reuse counter_factory counter_valid 0 w po
              eq_refl eq_refl ltac:(constructor)) as (Hab & _).
  exact (Hab 1 2 eq_refl eq_refl eq_refl).
Defined.

(** C4, as stated, fails.  A handle made without the pool, here by
    [std::make_shared], does not carry the pool's deleter: the assertion in
    [attach] fails and the handle is not bound. *)
Lemma C4_counterexample :
  attach (E:=nat) {| ptr := 5; del := other_deleter |} 0
  = Abort assert_failed.
Proof. reflexivity. Qed.

Lemma C4_witness :
  let po := {| owned := true; items_ := [] |} in
  let w := world_of (E:=nat) [po] 0 in
  attach (E:=nat) {| ptr := 5; del := pool_deleter None |} 0
  = Ok {| ptr := 5; del := pool_deleter (Some 0%nat) |}
  /\ items_of 0 (drop counter_valid {| ptr := 5; del := pool_deleter (Some 0%nat) |} w)
     = [{| ptr := 5; del := pool_deleter None |}].
Proof.
  intros po w.
  destruct (C4_attach_needs_pool_deleter (E:=nat) counter_valid
              {| ptr := 5; del := pool_deleter None |} 0 w) as (Ha & Hr).
  split; [exact Ha|]. exact (Hr eq_refl eq_refl).
Defined.

(** C5, as stated, fails.  The pool makes the counter 1 and gets it back;
    stored, the counter turns negative.  The next [get] discards it and then
    the factory throws: the error 42 reaches the caller, but the storage is
    empty and not as it was before the call. *)
Lemma C5_counterexample :
  let s := run flaky_factory counter_valid
             [OpNewPool; OpCreate 0; OpRelease 0; OpDecay 0 0 (-1)] (init 0) in
  exists w',
    get flaky_factory counter_valid 0 (sw s) = Some (Throw (factory_error 42%nat), w')
    /\ items_of 0 (sw s) = [{| ptr := -1; del := pool_deleter None |}]
    /\ items_of 0 w' = []
    /\ items_of 0 w' <> items_of 0 (sw s).
Proof. eexists. repeat split. discriminate. Qed.

Lemma C5_witness :
  let po := {| owned := true; items_ := [{| ptr := -1; del := pool_deleter None |}] |} in
  let w := world_of [po] 0 in
  create broken_factory 0 w
  = (Throw (factory_error 42%nat), emit [EvCreate 0 (inl 42%nat)] (set_env 0 w))
  /\ exists w',
       get broken_factory counter_valid 0 w = Some (Throw (factory_error 42%nat), w')
       /\ items_of 0 w' = []
       /\ deleted (trace w') = [-1].
Proof.
  intros po w.
  destruct (C5_factory_failure broken_factory counter_valid 0 w po 42%nat 0
              eq_refl eq_refl) as (_ & Hc & Hg).
  split; [exact Hc|].
  destruct (Hg ltac:(repeat constructor) ltac:(repeat constructor))
    as (w' & Hg' & _ & Hi & Hd & _).
  exists w'. split; [exact Hg'|]. split; [exact Hi|exact Hd].
Defined.

Lemma C7_witness :
  let sp := {| ptr := 7; del := pool_deleter (Some 0%nat) |} in
  let w := destroy_pool counter_valid 0
             (world_of (E:=nat) [{| owned := true; items_ := [] |}] 0) in
  drop counter_valid sp w = emit [EvResolve (Some 0%nat) None; EvDelete 7] w
  /\ pools (drop counter_valid sp w) = pools w
  /\ deleted (trace (drop counter_valid sp w)) = [7]
  /\ detach (E:=nat) sp = Ok {| ptr := 7; del := pool_deleter None |}.
Proof.
  intros sp w.
  destruct (C7_release_without_pool (E:=nat) counter_valid sp (Some 0%nat) w eq_refl)
    as (Hgone & _ & Hdet & _).
  destruct (Hgone eq_refl) as (H1 & H2 & H3 & _).
  split; [exact H1|]. split; [exact H2|]. split; [exact H3|exact Hdet].
Defined.

Lemma C8_witness :
  let ops := [OpCreate 0; OpCreate 0; OpCreate 0;
              OpRelease 0; OpRelease 0; OpRelease 0;
              OpDecay 0 1 (-1); OpGet 0; OpGet 0; OpGet 0] in
  let s := run (E:=nat) counter_factory counter_valid ops
             (step counter_factory counter_valid OpNewPool (init 0)) in
  Forall (fun o => pool_call 0 o = true) ops
  /\ (length (handles s) + length (items_of 0 (sw s))
      = count is_construction (trace (sw s)) - count is_destruction (trace (sw s)))%nat
  /\ (count is_destruction (trace (sw s)) <= count is_construction (trace (sw s)))%nat.
Proof.
  intros ops s.
  assert (Hops : Forall (fun o => pool_call (T:=Z) 0 o = true) ops)
    by (repeat constructor).
  split; [exact Hops|].
  exact (C8_conservation (E:=nat) counter_factory counter_valid 0 ops Hops).
Defined.

(** C10, as stated, fails.  The pool makes the counter 1 and gets it back;
    then its owning shared pointer goes away while the object lives on.
    [get] pops the counter, throws [bad_weak_ptr], and the counter is
    destroyed: the storage is not as it was before the call. *)
Lemma C10_counterexample :
  let s := run (E:=nat) counter_factory counter_valid
             [OpNewPool; OpCreate 0; OpRelease 0; OpExpire 0] (init 0) in
  exists w',
    get counter_factory counter_valid 0 (sw s) = Some (Throw bad_weak_ptr, w')
    /\ items_of 0 (sw s) = [{| ptr := 1; del := pool_deleter None |}]
    /\ items_of 0 w' = []
    /\ deleted (trace w') = [1]
    /\ items_of 0 w' <> items_of 0 (sw s).
Proof. eexists. repeat split. discriminate. Qed.

Lemma C10_witness :
  let po := {| owned := false; items_ := [{| ptr := 1; del := pool_deleter None |}] |} in
  let w := world_of [po] 0 in
  create counter_factory 0 w
  = (Throw bad_weak_ptr, emit [EvCreate 0 (inr 1)] (set_env 1 w))
  /\ exists w',
       get counter_factory counter_valid 0 w = Some (Throw bad_weak_ptr, w')
       /\ items_of 0 w' = []
       /\ deleted (trace w') = [1].
Proof.
  intros po w.
  destruct (C10_unowned_pool counter_factory counter_valid 0 w po
              eq_refl eq_refl ltac:(repeat constructor)) as (Hc & Hg & _).
  split; [exact (Hc 1 1 eq_refl)|].
  destruct (Hg [] {| ptr := 1; del := pool_deleter None |} []
              eq_refl eq_refl ltac:(constructor)) as (w' & Hg' & Hi & Hd).
  exists w'. split; [exact Hg'|]. split; [exact Hi|exact Hd].
Defined.

(** ** The further properties on the counter pool *)

Lemma X2_witness :
  attach (E:=nat) {| ptr := 1; del := pool_deleter (Some 0%nat) |} 5
  = Ok {| ptr := 1; del := pool_deleter (Some 5%nat) |}
  /\ detach (E:=nat) {| ptr := 1; del := pool_deleter (Some 0%nat) |}
     = Ok {| ptr := 1; del := pool_deleter None |}.
Proof.
  exact (X2_pool_handles_attachable counter_factory counter_valid 0
           [OpNewPool; OpCreate 0; OpRelease 0; OpGet 0] 0
           {| ptr := 1; del := pool_deleter (Some 0%nat) |} 5
           ltac:(repeat constructor) eq_refl).
Defined.

Lemma X3_witness :
  let ops := [OpNewPool; OpNewPool; OpCreate 0; OpCreate 1; OpAttach 0 1;
              OpRelease 0; OpDecay 1 0 (-1); OpEraseInvalid 1;
              OpCreate 0; OpRelease 1; OpDetach 0; OpDestroyPool 0] in
  let s := run (E:=nat) counter_factory counter_valid ops (init 0) in
  Forall (fun o => regular_call o = true) ops
  /\ (length (handles s) + stored_total (pools (sw s))
      = count is_construction (trace (sw s)) - count is_destruction (trace (sw s)))%nat
  /\ (count is_destruction (trace (sw s)) <= count is_construction (trace (sw s)))%nat.
Proof.
  intros ops s.
  assert (Hops : Forall (fun o => regular_call (T:=Z) o = true) ops)
    by (repeat constructor).
  split; [exact Hops|].
  exact (X3_conservation_all_pools (E:=nat) counter_factory counter_valid 0 ops Hops).
Defined.

Lemma X4_witness :
  let po := {| owned := true; items_ := [{| ptr := 7; del := pool_deleter None |}] |} in
  let w := world_of (E:=nat) [po] 0 in
  let h := {| ptr := 1; del := pool_deleter (Some 0%nat) |} in
  exists w1 w3,
    create counter_factory 0 w = (Ok h, w1)
    /\ get counter_factory counter_valid 0 (drop counter_valid h w1) = Some (Ok h, w3)
    /\ items_of 0 w3 = [{| ptr := 7; del := pool_deleter None |}]
    /\ count is_factory_call (trace w3) = 1%nat.
Proof.
  intros po w h.
  destruct (X4_create_release_get counter_factory counter_valid 0 w po 1 1
              eq_refl eq_refl ltac:(repeat constructor) eq_refl eq_refl)
    as (w1 & w3 & Hc & _ & Hg & Hi & Hf & _).
  exists w1, w3. split; [exact Hc|]. split; [exact Hg|]. split; [exact Hi|exact Hf].
Defined.

Lemma X5_witness :
  let po := {| owned := true;
               items_ := [{| ptr := 3; del := pool_deleter None |};
                          {| ptr := -1; del := pool_deleter None |};
                          {| ptr := 5; del := pool_deleter None |};
                          {| ptr := -2; del := pool_deleter None |}] |} in
  let w := world_of [po] 0 in
  exists r w1 w2,
    get counter_factory counter_valid 0 (erase_invalid counter_valid 0 w) = Some (r, w1)
    /\ get counter_factory counter_valid 0 w = Some (r, w2)
    /\ items_of 0 w1 = items_of 0 (erase_invalid counter_valid 0 w2)
    /\ Permutation (deleted (trace w1)) (deleted (trace (erase_invalid counter_valid 0 w2))).
Proof.
  intros po w.
  exact (X5_sweep_then_get counter_factory counter_valid 0 w po
           eq_refl eq_refl ltac:(repeat constructor)).
Defined.


Lemma X7_witness :
  let w := sw (run (E:=nat) counter_factory counter_valid
                 ([OpNewPool; OpCreate 0] ++ OpDestroyPool 0 :: [OpNewPool; OpCreate 1])
                 (init 0)) in
  pools w !! 0%nat = None
  /\ weak_lock (Some 0%nat) w = None
  /\ drop counter_valid {| ptr := 1; del := pool_deleter (Some 0%nat) |} w
     = emit [EvResolve (Some 0%nat) None; EvDelete 1] w.
Proof.
  exact (X7_destroyed_pool_stays_gone (E:=nat) counter_factory counter_valid 0
           [OpNewPool; OpCreate 0] [OpNewPool; OpCreate 1] 0 1
           ltac:(repeat constructor)).
Defined.

Lemma X8_witness :
  let po := {| owned := true;
               items_ := [{| ptr := 3; del := pool_deleter None |};
                          {| ptr := -1; del := pool_deleter None |}] |} in
  let w := world_of [po] 0 in
  items_of 0 (erase_invalid default_is_valid 0 w) = items_ po
  /\ exists w',
       get counter_factory default_is_valid 0 w
       = Some (Ok {| ptr := -1; del := pool_deleter (Some 0%nat) |}, w')
       /\ items_of 0 w' = [{| ptr := 3; del := pool_deleter None |}].
Proof.
  intros po w.
  destruct (X8_default_hook counter_factory 0 w po
              eq_refl eq_refl ltac:(repeat constructor)) as ((Hk & _) & _ & Hg).
  split; [exact Hk|].
  destruct (Hg [{| ptr := 3; del := pool_deleter None |}]
              {| ptr := -1; del := pool_deleter None |} eq_refl) as (w' & Hg' & _ & Hi).
  exists w'. split; [exact Hg'|exact Hi].
Defined.

Lemma X9_witness :
  let po := {| owned := true;
               items_ := [{| ptr := -5; del := pool_deleter (Some 0%nat) |};
                          {| ptr := -1; del := pool_deleter (Some 0%nat) |}] |} in
  let w := world_of [po] 0 in
  exists r w',
    get_loop counter_factory counter_valid 3 0 w = Some (r, w')
    /\ get counter_factory counter_valid 0 w = Some (r, w').
Proof.
  intros po w.
  exact (X9_get_returns counter_factory counter_valid 0 w po eq_refl).
Defined.

Lemma X10_witness :
  let w := sw (run (E:=nat) counter_factory counter_valid
                 [OpNewPool; OpCreate 0; OpRelease 0] (init 0)) in
  exists w',
    get counter_factory counter_valid 0 w
    = Some (Ok {| ptr := 1; del := pool_deleter (Some 0%nat) |}, w')
    /\ (counter_valid 1 = true \/ exists e', counter_factory (env w) = (inr 1, e')).
Proof.
  intros w.
  destruct (get_returns counter_factory counter_valid 0 w) as [[r w'] Hg].
  assert (Hfst : option_map fst (get counter_factory counter_valid 0 w)
                 = Some (Ok {| ptr := 1; del := pool_deleter (Some 0%nat) |}))
    by reflexivity.
  rewrite Hg in Hfst. simpl in Hfst. injection Hfst as ->.
  exists w'. split; [exact Hg|].
  destruct (X10_get_serves_valid_or_new counter_factory counter_valid 0 w w' _
              (stored_unbound_run counter_factory counter_valid _ _
                 (stored_unbound_init (E:=nat) 0))
              Hg) as [(Hv & _)|(_ & He & _)].
  - left. exact Hv.
  - right. exact He.
Defined.

End pool.
